(** * llvm-klee: harness generation for a function of a bitcode module

    A shallow embedding of [llvm/tools/llvm-klee/llvm-klee.cpp] and the
    properties of its harness generator.  The tool loads the modules of a
    bitcode file, looks a function up by name, walks the entry block of
    that function for calls that carry the name of a local variable, and
    prints a C program that declares one symbolic variable per name and
    calls the function.

    The embedding keeps the shape of [main]: the command-line options are
    a record read through their [cl::init] defaults, [std::cout] is the
    text written so far, the [unsigned] counters wrap at 2^32, and every
    place where the C++ dereferences or casts without a check is an
    explicit [Failure]. *)

From Stdlib Require Import ZArith List String Ascii Bool Lia.
From Stdlib Require Import DecimalString DecimalZ.
Import ListNotations.

Local Open Scope string_scope.
Local Open Scope Z_scope.

(* ===================================================================== *)
(** ** Text written to the standard streams *)
(* ===================================================================== *)

Module Text.

(** [std::endl] and the [\n] of the string literals: one line feed. *)
Definition endl : string := String (ascii_of_nat 10) EmptyString.

(** The escaped double quote of the string literals. *)
Definition dquote : string := String (ascii_of_nat 34) EmptyString.

(** [operator<<] on a signed or unsigned integer: decimal digits, a
    leading minus sign for a negative value. *)
Definition decimal (z : Z) : string := NilEmpty.string_of_int (Z.to_int z).

(** Reading a decimal number back, as a C compiler reads an array bound. *)
Definition read_decimal (s : string) : option Z :=
  option_map Z.of_int (NilEmpty.int_of_string s).

End Text.

Import Text.

(* ===================================================================== *)
(** ** The part of the IR the tool reads *)
(* ===================================================================== *)

Module IR.

(** [llvm::Type], with the two queries the tool makes. *)
Inductive Ty : Type :=
| VoidTy
| HalfTy
| FloatTy
| DoubleTy
| IntegerTy (BitWidth : Z)
| PointerTy (Pointee : Ty)
| ArrayTy (NumElements : Z) (Element : Ty)
| VectorTy (NumElements : Z) (Element : Ty)
| StructTy (Name : string)
| FunctionTy (Return : Ty).

Definition isPointerTy (T : Ty) : bool :=
  match T with PointerTy _ => true | _ => false end.

Definition isIntegerTy (T : Ty) : bool :=
  match T with IntegerTy _ => true | _ => false end.

(** Only called under [isIntegerTy]. *)
Definition getIntegerBitWidth (T : Ty) : Z :=
  match T with IntegerTy w => w | _ => 0 end.

(** [llvm::Metadata]: the node classes the casts of the tool tell apart. *)
Inductive Metadata : Type :=
| DILocalVariable (Name : string)     (* an MDNode, the class looked for *)
| DIExpression                        (* an MDNode of another class *)
| DILabel (Name : string)             (* an MDNode of another class *)
| ValueAsMetadata (T : Ty).           (* metadata that is not an MDNode *)

Definition isa_MDNode (MD : Metadata) : bool :=
  match MD with ValueAsMetadata _ => false | _ => true end.

(** [Intrinsic::ID] of a callee; [not_intrinsic] for every function that
    is not an intrinsic. *)
Inductive IntrinsicID : Type :=
| not_intrinsic
| dbg_declare
| dbg_value
| dbg_addr
| dbg_label
| other_intrinsic (Name : string).

Record Callee : Type := mkCallee {
  CalleeName : string;
  getIntrinsicID : IntrinsicID
}.

(** [llvm::Value] as an operand of an instruction. *)
Inductive Value : Type :=
| MetadataAsValue (MD : Metadata)
| CalledFunction (C : Callee)
| PlainValue (T : Ty).

(** An instruction is a call or something else; a call has its
    arguments and its callee. *)
Inductive Instruction : Type :=
| CallInst (C : Callee) (ArgOperands : list Value)
| OtherInst (Opcode : string).

(** The operand list of a call: the arguments, then the callee. *)
Definition operands (C : Callee) (ArgOperands : list Value) : list Value :=
  ArgOperands ++ [CalledFunction C].

Definition BasicBlock : Type := list Instruction.

Record Argument : Type := mkArgument { getType : Ty }.

Record Function : Type := mkFunction {
  getName : string;
  Arguments : list Argument;
  BasicBlocks : list BasicBlock
}.

Record Module : Type := mkModule {
  ModuleID : string;
  SourceFileName : string;
  DataLayoutStr : string;
  TargetTripleStr : string;
  FunctionList : list Function
}.

Definition setTargetTriple (M : Module) (T : string) : Module :=
  {| ModuleID := ModuleID M;
     SourceFileName := SourceFileName M;
     DataLayoutStr := DataLayoutStr M;
     TargetTripleStr := T;
     FunctionList := FunctionList M |}.

(** The functions of a module that have a name have different names: the
    symbol table of the module renames a function that is added under a
    name already taken. *)
Definition unique_names (M : Module) : Prop :=
  NoDup (filter (fun Name => negb (String.eqb Name ""))
                (map getName (FunctionList M))).

(** [Module::getFunction]: the function the symbol table of the module
    has under that name, or null.  A function without a name is not in
    the symbol table, so the empty name finds nothing. *)
Definition getFunction (M : Module) (Name : string) : option Function :=
  if String.eqb Name "" then None
  else find (fun F => String.eqb (getName F) Name) (FunctionList M).

(** [dyn_cast<DbgDeclareInst>] and [dyn_cast<DbgValueInst>], the tests of
    [CommentWriter::printInfoComment] (lines 91 and 97). *)
Definition isa_DbgDeclareInst (I : Instruction) : bool :=
  match I with
  | CallInst C _ =>
      match getIntrinsicID C with dbg_declare => true | _ => false end
  | OtherInst _ => false
  end.

Definition isa_DbgValueInst (I : Instruction) : bool :=
  match I with
  | CallInst C _ =>
      match getIntrinsicID C with dbg_value => true | _ => false end
  | OtherInst _ => false
  end.

(** [dyn_cast<CallInst>], the test of the scan in [main] (line 191). *)
Definition isa_CallInst (I : Instruction) : bool :=
  match I with CallInst _ _ => true | OtherInst _ => false end.

End IR.

Import IR.

(* ===================================================================== *)
(** ** Command line *)
(* ===================================================================== *)

Module CommandLine.

(** What the user gave; [None] is an option left out. *)
Record Given : Type := mkGiven {
  given_InputFilename : option string;
  given_FunctionName : option string;
  given_s : option Z;              (* -s, parsed as std::int32_t *)
  given_t : option string          (* -t *)
}.

Definition int32_range (v : Z) : Prop := - 2 ^ 31 <= v < 2 ^ 31.

Definition or_init {A : Type} (given : option A) (init : A) : A :=
  match given with Some v => v | None => init end.

(** The four [cl::opt] globals, read through their [cl::init]. *)
Definition InputFilename (g : Given) : string :=
  or_init (given_InputFilename g) "-".
Definition FunctionName (g : Given) : string :=
  or_init (given_FunctionName g) "".
Definition ArraySize (g : Given) : Z :=
  or_init (given_s g) 1024.
Definition TargetTriple (g : Given) : string :=
  or_init (given_t g) "x86_64-pc-linux-gnu".

End CommandLine.

Import CommandLine.

(* ===================================================================== *)
(** ** The tool *)
(* ===================================================================== *)

(** The places where [main] goes on without a check.  Each is an
    assertion of the LLVM headers (a crash in a build with assertions,
    undefined behaviour in one without); none prints a diagnostic of the
    tool. *)
Inductive Failure : Type :=
| NullFunction        (* line 168: F->arg_size() on the null getFunction gave *)
| NoEntryBlock        (* line 186: getEntryBlock() of a function without body *)
| OperandOutOfRange   (* line 193: getOperand(1) of a call with one operand *)
| NotMetadataAsValue  (* line 193: cast<MetadataAsValue> *)
| NotMDNode           (* line 192: cast<MDNode> *)
| NotDILocalVariable. (* line 194: cast<DILocalVariable> *)

(** How a run of the process ends. *)
Inductive Termination : Type :=
| Returned (code : Z)          (* main returned *)
| Exited (code : Z)            (* exit(), from ExitOnErr or the handler *)
| Crashed (why : Failure).

Record Run : Type := mkRun {
  status : Termination;
  cout : string;
  cerr : string
}.

(** [DiagnosticSeverity]. *)
Inductive DiagnosticSeverity : Type :=
| DS_Error
| DS_Warning
| DS_Remark
| DS_Note.

(** A diagnostic as the handler reads it: its severity and the text its
    [print] writes. *)
Record DiagnosticInfo : Type := mkDiagnosticInfo {
  getSeverity : DiagnosticSeverity;
  printed : string
}.

(** What the tool uses of the support library and does not define: the
    labels that [WithColor::error], [WithColor::warning] and
    [WithColor::note] write, with or without colour codes, and what the
    process writes to the error stream when it dies in an unchecked
    step (the line of a failed assertion, the report of the signal
    handlers that [InitLLVM] installs at line 143). *)
Record Support : Type := mkSupport {
  WithColor_error : string;
  WithColor_warning : string;
  WithColor_note : string;
  crash_report : Failure -> string
}.

(** What loading one module did (lines 161-164): the diagnostics that
    [getLazyModule] and [materializeAll] reported through the context,
    in order, and what they gave, an error message or the module. *)
Record Load : Type := mkLoad {
  reported : list DiagnosticInfo;
  loaded : string + Module
}.

(** [unsigned]: 32 bits, arithmetic modulo 2^32. *)
Definition unsigned (z : Z) : Z := z mod 2 ^ 32.

Section Generator.

Variable cl : Given.
Variable lib : Support.

(** Lines 170-185. *)
Definition prologue : string :=
  "#include <stdint.h>" ++ endl ++
  "#include <stdlib.h>" ++ endl ++
  endl ++
  "#ifdef __KLEE__" ++ endl ++
  "#include <klee/klee.h>" ++ endl ++
  "#endif" ++ endl ++
  endl ++
  "#define i8 int8_t" ++ endl ++
  "#define i16 int16_t" ++ endl ++
  "#define i32 int32_t" ++ endl ++
  "#define i64 int64_t" ++ endl ++
  "#define i128 int128_t" ++ endl ++
  endl ++
  "int main(int argc, char** argv) {" ++ endl ++
  "#ifdef __KLEE__" ++ endl.

(** Lines 237-240. *)
Definition epilogue : string :=
  "#endif" ++ endl ++
  endl ++
  "  return 0;" ++ endl ++
  "}" ++ endl.

(** Lines 203-207: the pointer branch. *)
Definition emit_pointer (name : string) : string :=
  "  char " ++ name ++ "[" ++ decimal (ArraySize cl) ++ "];" ++ endl ++
  "  klee_make_symbolic(" ++ name ++ ", sizeof(" ++ name ++ "), " ++
    dquote ++ name ++ dquote ++ ");" ++ endl.

(** Lines 209-212: [size] starts at 0 and takes the bit width of an
    integer type. *)
Definition size_of_type (T : Ty) : Z :=
  if isIntegerTy T then getIntegerBitWidth T else 0.

(** Lines 213-217: the other branch. *)
Definition emit_scalar (T : Ty) (name : string) : string :=
  "  i" ++ decimal (size_of_type T) ++ " " ++ name ++ ";" ++ endl ++
  "  klee_make_symbolic(&" ++ name ++ ", sizeof(" ++ name ++ "), " ++
    dquote ++ name ++ dquote ++ ");" ++ endl.

(** Lines 201-218. *)
Definition emit_declaration (T : Ty) (name : string) : string :=
  if isPointerTy T then emit_pointer name else emit_scalar T name.

(** Lines 198-222: walk the formal parameters with the counter [i]
    and write the declaration of the one at position [idx]. *)
Fixpoint args_loop (name : string) (idx : Z)
         (formals : list Argument) (i : Z) : string :=
  match formals with
  | [] => ""
  | arg :: rest =>
      if idx =? i
      then emit_declaration (getType arg) name       (* break *)
      else args_loop name idx rest (unsigned (i + 1))
  end.

(** Lines 192-196: the two casts on operand 1 and [getName]. *)
Definition variable_name (C : Callee) (ArgOperands : list Value)
  : Failure + string :=
  match nth_error (operands C ArgOperands) 1 with
  | None => inl OperandOutOfRange
  | Some (MetadataAsValue MD) =>
      if isa_MDNode MD
      then match MD with
           | DILocalVariable Name => inr Name
           | _ => inl NotDILocalVariable
           end
      else inl NotMDNode
  | Some _ => inl NotMetadataAsValue
  end.

(** The variables of the scan: [idx], [args] and what went to [cout]. *)
Record Scan : Type := mkScan {
  idx : Z;
  args : list string;
  out : string
}.

Definition scan_start : Scan := {| idx := 0; args := []; out := "" |}.

(** Lines 197-223: the body of the scan for a call whose operand 1
    names a variable. *)
Definition bind (F : Function) (name : string) (st : Scan) : Scan :=
  {| idx := unsigned (idx st + 1);
     args := args st ++ [name];
     out := out st ++ args_loop name (idx st) (Arguments F) 0 |}.

(** Lines 188-225: the scan of the entry block.  The result is the
    state in which the loop was left and, when a cast stopped it, the
    cast that did. *)
Fixpoint entry_loop (F : Function) (arg_size : Z)
         (BB : list Instruction) (st : Scan) : Scan * option Failure :=
  match BB with
  | [] => (st, None)
  | Inst :: rest =>
      if arg_size <=? idx st then (st, None)                  (* break *)
      else
        match Inst with
        | CallInst C ArgOperands =>
            match variable_name C ArgOperands with
            | inl why => (st, Some why)
            | inr name => entry_loop F arg_size rest (bind F name st)
            end
        | OtherInst _ => entry_loop F arg_size rest st
        end
  end.

(** Lines 227-235: the arguments of the call, with the counter [i]. *)
Fixpoint call_loop (arg_size : Z) (args : list string) (i : Z) : string :=
  match args with
  | [] => ""
  | a :: rest =>
      a ++ (if i <? unsigned (arg_size - 1) then ", " else ");" ++ endl)
        ++ call_loop arg_size rest (unsigned (i + 1))
  end.

(** Line 226 and lines 227-235. *)
Definition emit_call (arg_size : Z) (args : list string) : string :=
  "  " ++ FunctionName cl ++ "(" ++ call_loop arg_size args 0.

Definition arg_size_of (F : Function) : Z :=
  unsigned (Z.of_nat (List.length (Arguments F))).

(** Lines 168-240 for a function that was found. *)
Definition generate (F : Function) : Termination * string :=
  let arg_size := arg_size_of F in
  match BasicBlocks F with
  | [] => (Crashed NoEntryBlock, prologue)
  | BB :: _ =>
      match entry_loop F arg_size BB scan_start with
      | (st, Some why) => (Crashed why, prologue ++ out st)
      | (st, None) =>
          (Returned 0,
           prologue ++ out st ++ emit_call arg_size (args st) ++ epilogue)
      end
  end.

(** Lines 166-240: one turn of the loop over the modules, on a module
    that was loaded and materialized.  The module is returned as the
    turn leaves it. *)
Definition process_module (M : Module) : Module * (Termination * string) :=
  let M' := setTargetTriple M (TargetTriple cl) in
  match getFunction M' (FunctionName cl) with
  | None => (M', (Crashed NullFunction, ""))
  | Some F => (M', generate F)
  end.

(** Lines 111-136: what the handler writes to [errs()], and the status
    with which it ends the run when it does; otherwise it returns. *)
Definition handleDiagnostics (Prefix : string) (DI : DiagnosticInfo)
  : string * option Z :=
  (Prefix ++ ": " ++
   match getSeverity DI with
   | DS_Error => WithColor_error lib
   | DS_Warning => WithColor_warning lib
   | DS_Remark => "remark: "
   | DS_Note => WithColor_note lib
   end ++ printed DI ++ endl,
   match getSeverity DI with
   | DS_Error => Some 1
   | _ => None
   end).

(** The diagnostics of a load go to the handler one after the other;
    the first that ends the run is the last that is written. *)
Fixpoint report (Prefix : string) (DIs : list DiagnosticInfo)
  : string * option Z :=
  match DIs with
  | [] => ("", None)
  | DI :: rest =>
      match handleDiagnostics Prefix DI with
      | (line, Some code) => (line, Some code)
      | (line, None) =>
          (line ++ fst (report Prefix rest), snd (report Prefix rest))
      end
  end.

(** Lines 160-241: the loop over the modules.  The handler, installed
    at lines 150-151 with [argv[0]] as prefix, writes the diagnostics of
    each load; a load that fails ends the run through [ExitOnErr]; a
    turn that dies leaves its report on the error stream. *)
Fixpoint modules_loop (argv0 : string) (Mods : list Load) : Run :=
  match Mods with
  | [] => {| status := Returned 0; cout := ""; cerr := "" |}
  | L :: rest =>
      match report argv0 (reported L) with
      | (lines, Some code) =>
          {| status := Exited code; cout := ""; cerr := lines |}
      | (lines, None) =>
          match loaded L with
          | inl err =>
              {| status := Exited 1; cout := "";
                 cerr := lines ++ (argv0 ++ ": error: ") ++ err ++ endl |}
          | inr M =>
              match snd (process_module M) with
              | (Returned _, text) =>
                  let r := modules_loop argv0 rest in
                  {| status := status r; cout := text ++ cout r;
                     cerr := lines ++ cerr r |}
              | (Exited code, text) =>
                  {| status := Exited code; cout := text; cerr := lines |}
              | (Crashed why, text) =>
                  {| status := Crashed why; cout := text;
                     cerr := lines ++ crash_report lib why |}
              end
          end
      end
  end.

(** Lines 149-244, once the options are parsed.  The file is given as
    what reading it produced (lines 153-156): an error message, or the
    loads of its modules. *)
Definition run (argv0 : string) (file : string + list Load) : Run :=
  match file with
  | inl err =>
      {| status := Exited 1; cout := "";
         cerr := (argv0 ++ ": error: ") ++ err ++ endl |}
  | inr Mods => modules_loop argv0 Mods
  end.

End Generator.

(** Lines 142-244.  [cl::ParseCommandLineOptions] (line 147) either ends
    the run itself, with a status and texts of its own, or gives the
    options. *)
Definition main (lib : Support) (argv0 : string) (options : Run + Given)
           (file : string + list Load) : Run :=
  match options with
  | inl ended => ended
  | inr cl => run cl lib argv0 file
  end.

(* ===================================================================== *)
(** ** Views of the input used to state the properties *)
(* ===================================================================== *)

(** The calls of a block in program order, each with what the casts of
    the scan make of it. *)
Fixpoint calls (BB : list Instruction) : list (Failure + string) :=
  match BB with
  | [] => []
  | CallInst C ArgOperands :: rest => variable_name C ArgOperands :: calls rest
  | OtherInst _ :: rest => calls rest
  end.

(** The declarations of [names], the k-th against the k-th of [formals]. *)
Fixpoint declarations (cl : Given) (formals : list Argument)
         (names : list string) : string :=
  match formals, names with
  | arg :: formals', name :: names' =>
      emit_declaration cl (getType arg) name ++ declarations cl formals' names'
  | _, _ => ""
  end.

(** [a, b, c]: the names with a comma and a blank between two of them. *)
Fixpoint comma_separated (names : list string) : string :=
  match names with
  | [] => ""
  | [a] => a
  | a :: rest => a ++ ", " ++ comma_separated rest
  end.

(** Every name followed by a comma and a blank. *)
Fixpoint comma_terminated (names : list string) : string :=
  match names with
  | [] => ""
  | a :: rest => a ++ ", " ++ comma_terminated rest
  end.

(** The number of formal parameters fits an [unsigned]; LLVM keeps it in
    one ([Function::NumArgs]). *)
Definition fits_unsigned (F : Function) : Prop :=
  Z.of_nat (List.length (Arguments F)) < 2 ^ 32.

(** What holds of the variables of the scan between two turns: [idx]
    counts the names pushed so far and has not passed [arg_size]. *)
Definition scan_inv (F : Function) (st : Scan) : Prop :=
  idx st = Z.of_nat (List.length (args st)) /\ idx st <= arg_size_of F.

(* ===================================================================== *)
(** ** The harness as C text *)
(* ===================================================================== *)

(** The five [#define] lines of the prologue (lines 178-182), as the
    table a C preprocessor makes of them. *)
Definition aliases : list (string * string) :=
  [("i8", "int8_t"); ("i16", "int16_t"); ("i32", "int32_t");
   ("i64", "int64_t"); ("i128", "int128_t")].

Definition define (alias : string * string) : string :=
  "#define " ++ fst alias ++ " " ++ snd alias ++ endl.



Section ByteExtent.

(** The C implementation the harness is compiled with, as far as the
    size of a named type goes. *)
Variable sizeof_type : string -> option Z.


End ByteExtent.


(* ===================================================================== *)
(** ** The specification's notion of a record *)
(* ===================================================================== *)

(** The qualification in the words of the specification: a call to the
    debug-declare or the debug-value intrinsic.  These are the tests of
    [CommentWriter::printInfoComment]. *)
Definition debug_declaration_record (Inst : Instruction) : bool :=
  isa_DbgDeclareInst Inst || isa_DbgValueInst Inst.

(* ===================================================================== *)
(** ** Sample inputs *)
(* ===================================================================== *)

Module Samples.

Definition i32 : Argument := mkArgument (IntegerTy 32).

(** [call void @llvm.dbg.declare(metadata i32* %x.addr, metadata !n,
    metadata !DIExpression())] *)
Definition declare (name : string) : Instruction :=
  CallInst (mkCallee "llvm.dbg.declare" dbg_declare)
           [MetadataAsValue (ValueAsMetadata (PointerTy (IntegerTy 32)));
            MetadataAsValue (DILocalVariable name);
            MetadataAsValue DIExpression].

(** [call void @llvm.dbg.addr(...)], the same operands under another
    intrinsic. *)
Definition addr (name : string) : Instruction :=
  CallInst (mkCallee "llvm.dbg.addr" dbg_addr)
           [MetadataAsValue (ValueAsMetadata (PointerTy (IntegerTy 32)));
            MetadataAsValue (DILocalVariable name);
            MetadataAsValue DIExpression].

(** [call i32 @foo(i32 %a, i32 %b)] *)
Definition call_foo : Instruction :=
  CallInst (mkCallee "foo" not_intrinsic)
           [PlainValue (IntegerTy 32); PlainValue (IntegerTy 32)].

Definition ret : Instruction := OtherInst "ret".
Definition alloca : Instruction := OtherInst "alloca".
Definition store : Instruction := OtherInst "store".

(** The command line [llvm-klee in.bc f]. *)
Definition on (FunctionName : string) : Given :=
  mkGiven (Some "in.bc") (Some FunctionName) None None.

(** [int add(int a, int b)], compiled without optimization. *)
Definition add : Function :=
  mkFunction "add" [i32; i32]
    [[alloca; alloca; store; declare "a"; store; declare "b"; ret]].

(** [void fill(char *buf)] *)
Definition fill : Function :=
  mkFunction "fill" [mkArgument (PointerTy (IntegerTy 8))]
    [[alloca; store; declare "buf"; ret]].

(** [void tick(void)] *)
Definition tick : Function := mkFunction "tick" [] [[ret]].

(** [int twice(int x)] with its debug records stripped. *)
Definition twice : Function := mkFunction "twice" [i32] [[ret]].

(** [float half(float x)] *)
Definition half : Function :=
  mkFunction "half" [mkArgument FloatTy] [[declare "x"; ret]].

(** [int odd(i24 x)] *)
Definition odd : Function :=
  mkFunction "odd" [mkArgument (IntegerTy 24)] [[declare "x"; ret]].

Definition module_of (Fs : list Function) : Module :=
  mkModule "in.bc" "in.c" "e-m:e-i64:64-f80:128-n8:16:32:64-S128"
           "aarch64-unknown-linux-gnu" Fs.

End Samples.

(* ===================================================================== *)
(** ** The annotation writer *)
(* ===================================================================== *)

(** [llvm::DILocation] as [printDebugLoc] reads it: a line, a column,
    and the location the code was inlined at when there is one. *)
Inductive DILocation : Type :=
| Location (Line Col : Z)
| InlinedLocation (Line Col : Z) (InlinedAt : DILocation).

Definition getLine (DL : DILocation) : Z :=
  match DL with Location l _ | InlinedLocation l _ _ => l end.

Definition getCol (DL : DILocation) : Z :=
  match DL with Location _ c | InlinedLocation _ c _ => c end.

Definition getInlinedAt (DL : DILocation) : option DILocation :=
  match DL with
  | Location _ _ => None
  | InlinedLocation _ _ IDL => Some IDL
  end.

(** Lines and columns are [unsigned]. *)
Fixpoint unsigned_location (DL : DILocation) : Prop :=
  0 <= getLine DL /\ 0 <= getCol DL /\
  match DL with
  | Location _ _ => True
  | InlinedLocation _ _ IDL => unsigned_location IDL
  end.

(** Lines 58-64. *)
Fixpoint printDebugLoc (DL : DILocation) : string :=
  decimal (getLine DL) ++ ":" ++ decimal (getCol DL) ++
  match DL with
  | Location _ _ => ""
  | InlinedLocation _ _ IDL => "@" ++ printDebugLoc IDL
  end.

(** What goes to a [formatted_raw_ostream]: text, and requests to pad
    the line to a column. *)
Inductive Out : Type :=
| Write (text : string)
| PadToColumn (NewCol : Z).

Definition isVoidTy (T : Ty) : bool :=
  match T with VoidTy => true | _ => false end.

(** A value as [printInfoComment] reads it: its type, the number of its
    uses and, when it is an instruction, the instruction with its debug
    location, if it has one. *)
Record AnnotatedValue : Type := mkAnnotatedValue {
  getValueType : Ty;
  getNumUses : Z;
  asInstruction : option (option DILocation * Instruction)
}.

Section CommentWriter.

(** [operator<<] on a type, of the IR library. *)
Variable print_type : Ty -> string.

(** [getVariable()->getName()] of a debug intrinsic, of the IR library. *)
Variable getVariableName : Instruction -> string.

(** Lines 67-71. *)
Definition emitFunctionAnnot (NumUses : Z) : list Out :=
  [Write ("; [#uses=" ++ decimal NumUses ++ "]" ++ endl)].

(** Lines 82-86, 92-95 and 98-101: the padding of a comment that has not
    been padded yet, and its semicolon. *)
Definition pad_unless (Padded : bool) : list Out :=
  if Padded then [] else [PadToColumn 50; Write ";"].

(** Lines 91-103. *)
Definition debug_variable_comment (Padded : bool) (Inst : Instruction)
  : list Out :=
  if isa_DbgDeclareInst Inst then
    (pad_unless Padded ++
     [Write (" [debug variable = " ++ getVariableName Inst ++ "]")])%list
  else if isa_DbgValueInst Inst then
    (pad_unless Padded ++
     [Write (" [debug variable = " ++ getVariableName Inst ++ "]")])%list
  else [].

(** Lines 72-105. *)
Definition printInfoComment (V : AnnotatedValue) : list Out :=
  let (OS1, Padded1) :=
    if negb (isVoidTy (getValueType V))
    then ([PadToColumn 50;
           Write ("; [#uses=" ++ decimal (getNumUses V) ++ " type=" ++
                  print_type (getValueType V) ++ "]")],
          true)
    else ([], false) in
  match asInstruction V with
  | None => OS1
  | Some (DebugLoc, Inst) =>
      let (OS2, Padded2) :=
        match DebugLoc with
        | Some DL =>
            ((OS1 ++ pad_unless Padded1 ++
              [Write (" [debug line = " ++ printDebugLoc DL ++ "]")])%list,
             true)
        | None => (OS1, Padded1)
        end in
      (OS2 ++ debug_variable_comment Padded2 Inst)%list
  end.

End CommentWriter.

Definition is_PadToColumn (o : Out) : bool :=
  match o with PadToColumn _ => true | Write _ => false end.

(** *** Digits, to read a printed location back *)

Definition is_digit (c : ascii) : bool :=
  let n := nat_of_ascii c in (48 <=? n)%nat && (n <=? 57)%nat.

Fixpoint all_digits (s : string) : bool :=
  match s with
  | EmptyString => true
  | String c s' => is_digit c && all_digits s'
  end.

(** Empty, or beginning with a character that is not a digit. *)
Definition no_digit_ahead (s : string) : bool :=
  match s with
  | EmptyString => true
  | String c _ => negb (is_digit c)
  end.

(* ===================================================================== *)
(** ** Views of a run over several modules *)
(* ===================================================================== *)

(** The texts one after the other. *)
Fixpoint concat_text (texts : list string) : string :=
  match texts with
  | [] => ""
  | text :: rest => text ++ concat_text rest
  end.

(** What a turn on a module writes, and how it ends. *)
Definition harness_of (cl : Given) (M : Module) : string :=
  snd (snd (process_module cl M)).

Definition end_of (cl : Given) (M : Module) : Termination :=
  fst (snd (process_module cl M)).

(** None of the diagnostics is an error. *)
Definition no_error (DIs : list DiagnosticInfo) : Prop :=
  Forall (fun DI => getSeverity DI <> DS_Error) DIs.

(** A module that loaded, with the diagnostics of its load. *)
Definition loaded_with (load : list DiagnosticInfo * Module) : Load :=
  mkLoad (fst load) (inr (snd load)).

(** What the handler writes for the diagnostics of a load. *)
Definition lines_of (lib : Support) (argv0 : string)
           (DIs : list DiagnosticInfo) : string :=
  fst (report lib argv0 DIs).

(** A load without an error, of a module on which the turn returns. *)
Definition returned_turn (cl : Given)
           (load : list DiagnosticInfo * Module) : Prop :=
  no_error (fst load) /\ end_of cl (snd load) = Returned 0.

(** The harnesses of the modules, and the lines of their loads. *)
Definition harnesses (cl : Given)
           (Ms : list (list DiagnosticInfo * Module)) : string :=
  concat_text (map (fun load => harness_of cl (snd load)) Ms).

Definition all_lines (lib : Support) (argv0 : string)
           (Ms : list (list DiagnosticInfo * Module)) : string :=
  concat_text (map (fun load => lines_of lib argv0 (fst load)) Ms).

(** No formal parameter of pointer type. *)
Definition no_pointer_parameter (F : Function) : bool :=
  forallb (fun arg => negb (isPointerTy (getType arg))) (Arguments F).

(** More sample inputs. *)
Module MoreSamples.

(** Line 12, column 3, inlined at line 40, column 9. *)
Definition inlined : DILocation := InlinedLocation 12 3 (Location 40 9).

(** [int scale(int *v, int k)] *)
Definition scale : Function :=
  mkFunction "scale"
    [mkArgument (PointerTy (IntegerTy 32)); Samples.i32]
    [[Samples.alloca; Samples.declare "v"; Samples.declare "k";
      Samples.ret]].

(** A function without a body. *)
Definition puts : Function :=
  mkFunction "puts" [mkArgument (PointerTy (IntegerTy 8))] [].

(** A support library that writes its labels without colours and one
    line when the process dies. *)
Definition plain : Support :=
  mkSupport "error: " "warning: " "note: "
            (fun _ => "PLEASE submit a bug report" ++ endl).

Definition stale_debug_info : DiagnosticInfo :=
  mkDiagnosticInfo DS_Warning "ignoring invalid debug info in in.bc".

(** A module that loads without a diagnostic. *)
Definition quiet (M : Module) : Load := mkLoad [] (inr M).

End MoreSamples.

(* ===================================================================== *)
(** ** Text *)
(* ===================================================================== *)

Lemma append_assoc (a b c : string) : (a ++ b) ++ c = a ++ (b ++ c).
Proof.
  induction a as [|ch a IH]; simpl; [reflexivity | now rewrite IH].
Qed.

Lemma append_nil_r (a : string) : a ++ "" = a.
Proof.
  induction a as [|ch a IH]; simpl; [reflexivity | now rewrite IH].
Qed.

Lemma append_inv_head (a b c : string) : a ++ b = a ++ c -> b = c.
Proof.
  induction a as [|ch a IH]; simpl; intros H; [exact H|].
  injection H as H. now apply IH.
Qed.

Lemma read_decimal_decimal (z : Z) : read_decimal (decimal z) = Some z.
Proof.
  unfold read_decimal, decimal. rewrite NilEmpty.isi. simpl.
  now rewrite DecimalZ.of_to.
Qed.

(* ===================================================================== *)
(** ** The counters *)
(* ===================================================================== *)

Lemma unsigned_small (z : Z) : 0 <= z < 2 ^ 32 -> unsigned z = z.
Proof. intros H. unfold unsigned. now apply Z.mod_small. Qed.

Lemma unsigned_range (z : Z) : 0 <= unsigned z < 2 ^ 32.
Proof. unfold unsigned. apply Z.mod_pos_bound. lia. Qed.

Lemma unsigned_le (z : Z) : 0 <= z -> unsigned z <= z.
Proof. intros H. unfold unsigned. apply Z.mod_le; lia. Qed.

Lemma arg_size_of_range (F : Function) : 0 <= arg_size_of F < 2 ^ 32.
Proof. apply unsigned_range. Qed.

Lemma arg_size_of_le (F : Function) :
  arg_size_of F <= Z.of_nat (List.length (Arguments F)).
Proof. apply unsigned_le. lia. Qed.

Lemma arg_size_of_fits (F : Function) :
  fits_unsigned F -> arg_size_of F = Z.of_nat (List.length (Arguments F)).
Proof. intros H. apply unsigned_small. unfold fits_unsigned in H. lia. Qed.

(* ===================================================================== *)
(** ** The walk over the formal parameters *)
(* ===================================================================== *)

(** The walk stops at the formal parameter whose position is [idx]. *)
Lemma args_loop_at (cl : Given) (name : string) (k : Z) :
  forall (formals : list Argument) (i : Z) (arg : Argument),
    0 <= i <= k -> k < 2 ^ 32 ->
    nth_error formals (Z.to_nat (k - i)) = Some arg ->
    args_loop cl name k formals i = emit_declaration cl (getType arg) name.
Proof.
  induction formals as [|a formals IH]; intros i arg Hi Hk Hnth.
  - destruct (Z.to_nat (k - i)); discriminate.
  - simpl. destruct (Z.eqb_spec k i) as [->|Hne].
    + rewrite Z.sub_diag in Hnth. simpl in Hnth. now injection Hnth as ->.
    + rewrite unsigned_small by lia.
      apply IH; [lia | lia |].
      replace (Z.to_nat (k - i)) with (S (Z.to_nat (k - (i + 1)))) in Hnth
        by lia.
      exact Hnth.
Qed.

(* ===================================================================== *)
(** ** One turn of the scan *)
(* ===================================================================== *)

Section Turn.

Variable cl : Given.
Variable F : Function.

(** A call whose operand 1 names a variable, met while a formal
    parameter is left: the name is bound to the formal parameter at
    position [idx], its declaration is written, and the scan goes on. *)
Lemma entry_loop_bind (C : Callee) (ArgOperands : list Value)
      (rest : list Instruction) (st : Scan) (name : string)
      (arg : Argument) :
  0 <= idx st < arg_size_of F ->
  variable_name C ArgOperands = inr name ->
  nth_error (Arguments F) (Z.to_nat (idx st)) = Some arg ->
  entry_loop cl F (arg_size_of F) (CallInst C ArgOperands :: rest) st =
  entry_loop cl F (arg_size_of F) rest
    (mkScan (idx st + 1) (args st ++ [name])
            (out st ++ emit_declaration cl (getType arg) name)).
Proof.
  intros Hidx Hname Hnth. pose proof (arg_size_of_range F) as HP.
  simpl. destruct (Z.leb_spec (arg_size_of F) (idx st)) as [Hle|_]; [lia|].
  rewrite Hname. unfold bind.
  rewrite unsigned_small by lia.
  rewrite (args_loop_at cl name (idx st) (Arguments F) 0 arg);
    [reflexivity | lia | lia | now rewrite Z.sub_0_r].
Qed.

(** An instruction that is not a call leaves the scan as it is. *)
Lemma entry_loop_skip (P : Z) (Opcode : string) (rest : list Instruction)
      (st : Scan) :
  idx st < P ->
  entry_loop cl F P (OtherInst Opcode :: rest) st = entry_loop cl F P rest st.
Proof.
  intros Hidx. simpl.
  destruct (Z.leb_spec P (idx st)) as [Hle|_]; [lia | reflexivity].
Qed.

(** Once [idx] has reached [arg_size] nothing more is read. *)
Lemma entry_loop_full (P : Z) (BB : list Instruction) (st : Scan) :
  P <= idx st -> entry_loop cl F P BB st = (st, None).
Proof.
  intros Hidx. destruct BB as [|Inst rest]; [reflexivity|]. simpl.
  destruct (Z.leb_spec P (idx st)) as [_|Hlt]; [reflexivity | lia].
Qed.

End Turn.

(* ===================================================================== *)
(** ** The scan as a whole *)
(* ===================================================================== *)

Lemma skipn_nth_error {A : Type} (l : list A) (k : nat) (a : A) :
  nth_error l k = Some a -> skipn k l = a :: skipn (S k) l.
Proof.
  revert l. induction k as [|k IH]; intros [|b l] H; try discriminate.
  - now injection H as ->.
  - simpl in H. apply IH in H. exact H.
Qed.

Lemma declarations_nil (cl : Given) (formals : list Argument) :
  declarations cl formals [] = "".
Proof. now destruct formals. Qed.

Section Scan.

Variable cl : Given.
Variable F : Function.

Let P : Z := arg_size_of F.

Lemma scan_inv_start : scan_inv F scan_start.
Proof.
  split; [reflexivity|]. simpl. apply (arg_size_of_range F).
Qed.

(** The scan from a state [st]: the names it adds are those of the
    calls of the block, in program order and without a gap; the k-th
    name is declared against the k-th formal parameter; it ends with
    [arg_size] names, or at the end of the block, or at the first call
    on which a cast fails. *)
Lemma entry_loop_spec :
  forall (BB : list Instruction) (st st' : Scan) (r : option Failure),
    scan_inv F st ->
    entry_loop cl F P BB st = (st', r) ->
    exists new : list string,
      args st' = (args st ++ new)%list /\
      scan_inv F st' /\
      out st' = out st ++
        declarations cl (skipn (List.length (args st)) (Arguments F)) new /\
      map inr new = firstn (List.length new) (calls BB) /\
      match r with
      | None => idx st' = P \/ List.length new = List.length (calls BB)
      | Some why =>
          idx st' < P /\
          nth_error (calls BB) (List.length new) = Some (inl why)
      end.
Proof.
  pose proof (arg_size_of_range F) as HP.
  pose proof (arg_size_of_le F) as HPle.
  induction BB as [|Inst rest IH]; intros st st' r [Hidx Hle] E.
  - simpl in E. injection E as <- <-. exists [].
    rewrite app_nil_r, declarations_nil, append_nil_r.
    repeat split; auto.
  - destruct (Z.le_gt_cases P (idx st)) as [Hfull|Hlt].
    + rewrite entry_loop_full in E by exact Hfull. injection E as <- <-.
      exists []. rewrite app_nil_r, declarations_nil, append_nil_r.
      repeat split; auto. left. unfold P in *. lia.
    + destruct Inst as [C ArgOperands|Opcode].
      * destruct (variable_name C ArgOperands) as [why|name] eqn:Hname.
        -- simpl in E. fold P in Hlt.
           destruct (Z.leb_spec P (idx st)) as [Hge|_]; [lia|].
           rewrite Hname in E. injection E as <- <-. exists [].
           rewrite app_nil_r, declarations_nil, append_nil_r.
           repeat split; auto. cbn [calls List.length nth_error].
           now rewrite Hname.
        -- destruct (nth_error (Arguments F) (Z.to_nat (idx st)))
             as [arg|] eqn:Hnth.
           2:{ apply nth_error_None in Hnth. unfold P in *. lia. }
           unfold P in E.
           rewrite (entry_loop_bind cl F C ArgOperands rest st name arg)
             in E; [| unfold P in *; lia | exact Hname | exact Hnth].
           apply IH in E.
           2:{ split; simpl; [rewrite length_app; simpl; lia
                             | unfold P in *; lia]. }
           destruct E as (new & Hargs & Hinv & Hout & Hmap & Hend).
           simpl in Hargs, Hout. exists (name :: new).
           rewrite Hidx, Nat2Z.id in Hnth.
           rewrite (skipn_nth_error _ _ _ Hnth).
           rewrite length_app, Nat.add_1_r in Hout.
           repeat split.
           ++ now rewrite Hargs, <- app_assoc.
           ++ apply Hinv.
           ++ apply Hinv.
           ++ rewrite Hout. simpl. now rewrite append_assoc.
           ++ cbn [calls map firstn List.length]. rewrite Hname.
              now f_equal.
           ++ cbn [calls List.length nth_error].
              destruct r as [why|].
              ** exact Hend.
              ** destruct Hend as [Hend|Hend]; [now left | right; lia].
      * rewrite entry_loop_skip in E by exact Hlt.
        apply IH in E; [| now split]. exact E.
Qed.

(** Once [arg_size] names are bound, what follows in the block is not
    read: the scan of a block that goes on is the scan of the part
    that filled the list. *)
Lemma entry_loop_stops :
  forall (pre post : list Instruction) (st : Scan),
    idx (fst (entry_loop cl F P pre st)) = P ->
    entry_loop cl F P (pre ++ post) st = entry_loop cl F P pre st.
Proof.
  induction pre as [|Inst pre IH]; intros post st Hfull.
  - simpl in Hfull. simpl. apply entry_loop_full. lia.
  - simpl in *. destruct (P <=? idx st); [reflexivity|].
    destruct Inst as [C ArgOperands|Opcode].
    + destruct (variable_name C ArgOperands) as [why|name];
        [reflexivity | now apply IH].
    + now apply IH.
Qed.

(** A block without a call binds nothing and writes nothing. *)
Lemma entry_loop_no_call :
  forall (BB : list Instruction) (st : Scan),
    forallb (fun Inst => negb (isa_CallInst Inst)) BB = true ->
    entry_loop cl F P BB st = (st, None).
Proof.
  induction BB as [|Inst rest IH]; intros st Hno; [reflexivity|].
  simpl in *. apply andb_prop in Hno as [Hhd Htl].
  destruct (P <=? idx st); [reflexivity|].
  destruct Inst; [discriminate | now apply IH].
Qed.

End Scan.

Lemma map_inr_inj {A B : Type} (l l' : list B) :
  map (@inr A B) l = map (@inr A B) l' -> l = l'.
Proof.
  revert l'. induction l as [|x l IH]; intros [|y l'] H; try discriminate.
  - reflexivity.
  - simpl in H. injection H as -> H. f_equal. now apply IH.
Qed.

Section NamedCalls.

Variable cl : Given.
Variable F : Function.

(** When the calls the scan can reach, the first [arg_size] of the
    block, all name a variable, the scan ends with exactly their
    names, bound in order, and with their declarations written. *)
Lemma entry_loop_named (BB : list Instruction) (names : list string) :
  firstn (Z.to_nat (arg_size_of F)) (calls BB) = map inr names ->
  entry_loop cl F (arg_size_of F) BB scan_start =
  (mkScan (Z.of_nat (List.length names)) names
          (declarations cl (Arguments F) names), None).
Proof.
  intros Hnamed. pose proof (arg_size_of_range F) as HP.
  destruct (entry_loop cl F (arg_size_of F) BB scan_start) as [st' r] eqn:E.
  destruct (entry_loop_spec cl F BB scan_start st' r (scan_inv_start F) E)
    as (new & Hargs & [Hidx Hle] & Hout & Hmap & Hend).
  simpl in Hargs, Hout. rewrite Hargs in Hidx.
  assert (Hlen : (List.length new <= Z.to_nat (arg_size_of F))%nat) by lia.
  assert (Hpre : new = firstn (List.length new) names).
  { apply (map_inr_inj (A := Failure)). rewrite <- firstn_map, <- Hnamed.
    rewrite firstn_firstn, Nat.min_l by exact Hlen. exact Hmap. }
  assert (Hnames : (List.length names <= Z.to_nat (arg_size_of F))%nat).
  { rewrite <- (length_map (@inr Failure string)), <- Hnamed, length_firstn.
    apply Nat.le_min_l. }
  assert (Hall : new = names).
  { destruct r as [why|].
    - destruct Hend as [Hlt Hnth]. exfalso.
      assert (Hin : (List.length new <? Z.to_nat (arg_size_of F))%nat = true)
        by (apply Nat.ltb_lt; lia).
      pose proof (nth_error_firstn (Z.to_nat (arg_size_of F)) (calls BB)
                    (List.length new)) as HF.
      rewrite Hin, Hnamed, nth_error_map, Hnth in HF.
      destruct (nth_error names (List.length new)); discriminate.
    - rewrite Hpre. apply firstn_all2. destruct Hend as [Hfull|Hend].
      + lia.
      + rewrite Hend.
        rewrite <- (length_map (@inr Failure string) names), <- Hnamed.
        rewrite length_firstn. apply Nat.le_min_r. }
  subst new. destruct st' as [i a o]. simpl in *. subst.
  assert (Hr : r = None).
  { destruct r as [why|]; [|reflexivity]. exfalso.
    destruct Hend as [Hlt Hnth].
    assert (Hin : (List.length names <? Z.to_nat (arg_size_of F))%nat = true)
      by (apply Nat.ltb_lt; lia).
    pose proof (nth_error_firstn (Z.to_nat (arg_size_of F)) (calls BB)
                  (List.length names)) as HF.
    rewrite Hin, Hnamed, nth_error_map, Hnth in HF.
    destruct (nth_error names (List.length names)); discriminate. }
  now subst r.
Qed.

End NamedCalls.

(* ===================================================================== *)
(** ** The arguments of the call *)
(* ===================================================================== *)

(** With fewer names than [arg_size], every name is followed by a comma
    and the closing of the call is never reached. *)
Lemma call_loop_short (P : Z) :
  1 <= P < 2 ^ 32 ->
  forall (names : list string) (i : Z),
    0 <= i -> i + Z.of_nat (List.length names) < P ->
    call_loop P names i = comma_terminated names.
Proof.
  intros HP. induction names as [|a rest IH]; intros i Hi Hlen;
    [reflexivity|].
  cbn [call_loop comma_terminated List.length] in *.
  rewrite (unsigned_small (P - 1)) by lia.
  destruct (Z.ltb_spec i (P - 1)) as [_|Hge]; [|lia].
  rewrite (unsigned_small (i + 1)) by lia.
  rewrite IH by lia. reflexivity.
Qed.

(** With exactly [arg_size] names, at least one, the names are separated
    by commas and the last is followed by the closing of the call. *)
Lemma call_loop_exact (P : Z) :
  1 <= P < 2 ^ 32 ->
  forall (names : list string) (i : Z),
    0 <= i -> names <> [] -> i + Z.of_nat (List.length names) = P ->
    call_loop P names i = comma_separated names ++ ");" ++ endl.
Proof.
  intros HP. induction names as [|a rest IH]; intros i Hi Hne Hlen;
    [contradiction|].
  cbn [call_loop List.length] in *.
  rewrite (unsigned_small (P - 1)) by lia.
  destruct rest as [|b rest].
  - simpl in Hlen. destruct (Z.ltb_spec i (P - 1)) as [Hlt|_]; [lia|].
    cbn [call_loop comma_separated]. now rewrite append_nil_r.
  - destruct (Z.ltb_spec i (P - 1)) as [_|Hge];
      [| cbn [List.length] in Hlen; lia].
    rewrite (unsigned_small (i + 1)) by lia.
    rewrite IH; [| lia | discriminate | cbn [List.length] in *; lia].
    cbn [comma_separated]. now rewrite !append_assoc.
Qed.

(** Without a formal parameter [arg_size - 1] wraps to the largest
    [unsigned]. *)
Example arg_size_minus_one_wraps : unsigned (0 - 1) = 4294967295.
Proof. reflexivity. Qed.

(* ===================================================================== *)
(** ** The harness of a function *)
(* ===================================================================== *)

Section Harness.

Variable cl : Given.

(** A function with a body whose reachable calls all name a variable:
    the run returns, and the harness is the prologue, the declarations
    of the names, the call and the epilogue. *)
Lemma generate_named (F : Function) (BB : BasicBlock)
      (BBs : list BasicBlock) (names : list string) :
  BasicBlocks F = BB :: BBs ->
  firstn (Z.to_nat (arg_size_of F)) (calls BB) = map inr names ->
  generate cl F =
  (Returned 0,
   prologue ++ declarations cl (Arguments F) names ++
   emit_call cl (arg_size_of F) names ++ epilogue).
Proof.
  intros Hbody Hnamed. unfold generate. rewrite Hbody.
  now rewrite (entry_loop_named cl F BB names Hnamed).
Qed.

(** Property X1.  As many records as formal parameters, at least one: one
    declaration per formal parameter, and a call that lists the names
    in order, separated by commas and closed. *)
Lemma generate_exact_count (F : Function) (BB : BasicBlock)
      (BBs : list BasicBlock) (names : list string) :
  fits_unsigned F ->
  BasicBlocks F = BB :: BBs ->
  firstn (List.length (Arguments F)) (calls BB) = map inr names ->
  List.length names = List.length (Arguments F) ->
  names <> [] ->
  generate cl F =
  (Returned 0,
   prologue ++ declarations cl (Arguments F) names ++
   ("  " ++ FunctionName cl ++ "(" ++ comma_separated names ++ ");" ++ endl)
   ++ epilogue).
Proof.
  intros Hfits Hbody Hnamed Hlen Hne.
  pose proof (arg_size_of_fits F Hfits) as HP.
  pose proof (arg_size_of_range F) as Hrange.
  rewrite (generate_named F BB BBs names Hbody)
    by (rewrite HP, Nat2Z.id; exact Hnamed).
  unfold emit_call. rewrite call_loop_exact; try (exact Hne || lia).
  - now rewrite !append_assoc.
  - destruct names; [contradiction | simpl in Hlen; lia].
Qed.

(** Fewer names than formal parameters: every name of the call is
    followed by a comma, and the call is not closed. *)
Lemma emit_call_undercount (F : Function) (names : list string) :
  fits_unsigned F ->
  (List.length names < List.length (Arguments F))%nat ->
  emit_call cl (arg_size_of F) names =
  "  " ++ FunctionName cl ++ "(" ++ comma_terminated names.
Proof.
  intros Hfits Hlen. pose proof (arg_size_of_fits F Hfits) as HP.
  pose proof (arg_size_of_range F) as Hrange.
  unfold emit_call. now rewrite call_loop_short by lia.
Qed.

(** No formal parameter: nothing is read from the block and the call
    is left open after its parenthesis. *)
Lemma generate_no_parameter (name : string) (BB : BasicBlock)
      (BBs : list BasicBlock) :
  generate cl (mkFunction name [] (BB :: BBs)) =
  (Returned 0, prologue ++ ("  " ++ FunctionName cl ++ "(") ++ epilogue).
Proof.
  unfold generate. cbn [BasicBlocks].
  rewrite entry_loop_full by (cbn; lia).
  cbn [out args scan_start]. unfold emit_call. cbn [call_loop].
  change ("" ++ ?x) with x. now rewrite !append_assoc.
Qed.

End Harness.

(** *** The declaration of the parameter bound by one record *)

(** The declarations of names, split at one of them. *)
Lemma declarations_at (cl : Given) :
  forall (earlier : list string) (formals : list Argument) (arg : Argument)
         (name : string) (more : list string),
    nth_error formals (List.length earlier) = Some arg ->
    declarations cl formals (earlier ++ name :: more) =
    declarations cl formals earlier ++
    emit_declaration cl (getType arg) name ++
    declarations cl (skipn (S (List.length earlier)) formals) more.
Proof.
  induction earlier as [|e earlier IH]; intros [|a formals] arg name more Hnth;
    try discriminate.
  - cbn in Hnth. injection Hnth as ->. reflexivity.
  - cbn [List.length nth_error] in Hnth.
    cbn [app declarations List.length skipn].
    rewrite (IH formals arg name more Hnth). now rewrite !append_assoc.
Qed.

(** When the first calls of the block name variables and there are no
    more of them than formal parameters, the scan binds these names
    first, in order, and writes their declarations. *)
Lemma scan_binds_named_prefix (cl : Given) (F : Function)
      (BB : list Instruction) (names : list string) :
  firstn (List.length names) (calls BB) = map inr names ->
  Z.of_nat (List.length names) <= arg_size_of F ->
  exists more : list string,
    args (fst (entry_loop cl F (arg_size_of F) BB scan_start)) =
      (names ++ more)%list /\
    out (fst (entry_loop cl F (arg_size_of F) BB scan_start)) =
      declarations cl (Arguments F) (names ++ more).
Proof.
  intros Hnamed Hle.
  destruct (entry_loop cl F (arg_size_of F) BB scan_start) as [st' r] eqn:E.
  destruct (entry_loop_spec cl F BB scan_start st' r (scan_inv_start F) E)
    as (new & Hargs & [Hidx Hbound] & Hout & Hmap & Hend).
  cbn [fst]. simpl in Hargs, Hout. rewrite Hargs in Hidx.
  assert (Hcalls : (List.length names <= List.length (calls BB))%nat).
  { assert (Hn : List.length (firstn (List.length names) (calls BB)) =
                 List.length names) by now rewrite Hnamed, length_map.
    rewrite length_firstn in Hn. lia. }
  assert (Hreach : (List.length names <= List.length new)%nat).
  { destruct (Nat.le_gt_cases (List.length names) (List.length new))
      as [Hok|Hshort]; [exact Hok|]. exfalso. destruct r as [why|].
    - destruct Hend as [_ Hnth].
      pose proof (nth_error_firstn (List.length names) (calls BB)
                    (List.length new)) as HF.
      destruct (Nat.ltb_spec (List.length new) (List.length names))
        as [_|Hge]; [|lia].
      rewrite Hnamed, nth_error_map, Hnth in HF.
      destruct (nth_error names (List.length new)); discriminate.
    - destruct Hend as [Hfull|Hall]; lia. }
  assert (Hfirst : firstn (List.length names) new = names).
  { apply (map_inr_inj (A := Failure)).
    rewrite <- firstn_map, Hmap, firstn_firstn, Nat.min_l by exact Hreach.
    exact Hnamed. }
  exists (skipn (List.length names) new).
  rewrite <- Hfirst at 1 3. rewrite firstn_skipn. now split.
Qed.

(** The outcome of the scan, its counter and its names do not depend on
    the options nor on the types of the formal parameters. *)
Lemma entry_loop_same_outcome (cl cl' : Given) (F F' : Function) (P : Z) :
  forall (BB : list Instruction) (st st2 : Scan),
    idx st = idx st2 -> args st = args st2 ->
    snd (entry_loop cl F P BB st) = snd (entry_loop cl' F' P BB st2) /\
    idx (fst (entry_loop cl F P BB st)) =
      idx (fst (entry_loop cl' F' P BB st2)) /\
    args (fst (entry_loop cl F P BB st)) =
      args (fst (entry_loop cl' F' P BB st2)).
Proof.
  induction BB as [|Inst BB IH]; intros st st2 Hidx Hargs; [now cbn|].
  cbn [entry_loop]. rewrite <- Hidx. destruct (P <=? idx st); [now cbn|].
  destruct Inst as [C ArgOperands|Opcode]; [|now apply IH].
  destruct (variable_name C ArgOperands) as [why|name]; [now cbn|].
  apply IH; unfold bind; cbn [idx args]; congruence.
Qed.

(** How the run on a function ends depends on its entry block and on
    the number of its formal parameters, not on their types nor on the
    options. *)
Lemma generate_same_outcome (cl cl' : Given) (F F' : Function) :
  BasicBlocks F' = BasicBlocks F ->
  List.length (Arguments F') = List.length (Arguments F) ->
  fst (generate cl' F') = fst (generate cl F).
Proof.
  intros Hbody Hlen. unfold generate, arg_size_of. rewrite Hbody, Hlen.
  destruct (BasicBlocks F) as [|BB BBs]; [reflexivity|].
  destruct (entry_loop_same_outcome cl' cl F' F
              (unsigned (Z.of_nat (List.length (Arguments F)))) BB
              scan_start scan_start eq_refl eq_refl) as (Hcut & _ & _).
  destruct (entry_loop cl' F' _ BB scan_start) as [st1 r1].
  destruct (entry_loop cl F _ BB scan_start) as [st2 r2].
  cbn [snd] in Hcut. subst r2. now destruct r1.
Qed.

(** A record that names a variable while a formal parameter is left,
    after records that name variables: whatever comes later in the
    block, the harness holds, after the prologue and the declarations
    of the earlier names, the declaration of this name against the
    formal parameter at the position of the record. *)
Lemma harness_holds_declaration (cl : Given) (F : Function)
      (BB : BasicBlock) (BBs : list BasicBlock) (earlier : list string)
      (name : string) (arg : Argument) :
  BasicBlocks F = BB :: BBs ->
  firstn (S (List.length earlier)) (calls BB) =
    map inr (earlier ++ [name]) ->
  Z.of_nat (List.length earlier) < arg_size_of F ->
  nth_error (Arguments F) (List.length earlier) = Some arg ->
  exists tail : string,
    snd (generate cl F) =
    prologue ++ declarations cl (Arguments F) earlier ++
    emit_declaration cl (getType arg) name ++ tail.
Proof.
  intros Hbody Hnamed Hlt Hnth.
  destruct (scan_binds_named_prefix cl F BB (earlier ++ [name]))
    as (more & Hargs & Hout).
  - rewrite length_app, Nat.add_1_r. exact Hnamed.
  - rewrite length_app. cbn [List.length]. lia.
  - rewrite <- app_assoc in Hout. cbn [app] in Hout.
    rewrite (declarations_at cl earlier (Arguments F) arg name more Hnth)
      in Hout.
    unfold generate. rewrite Hbody.
    destruct (entry_loop cl F (arg_size_of F) BB scan_start) as [st' [why|]];
      cbn [fst snd] in *; rewrite Hout.
    + eexists. reflexivity.
    + eexists. rewrite !append_assoc. reflexivity.
Qed.

(** Scenario A of the specification. *)
Example scenario_A :
  generate (Samples.on "add") Samples.add =
  (Returned 0,
   prologue ++
   "  i32 a;" ++ endl ++
   "  klee_make_symbolic(&a, sizeof(a), " ++ dquote ++ "a" ++ dquote ++ ");"
     ++ endl ++
   "  i32 b;" ++ endl ++
   "  klee_make_symbolic(&b, sizeof(b), " ++ dquote ++ "b" ++ dquote ++ ");"
     ++ endl ++
   "  add(a, b);" ++ endl ++
   epilogue).
Proof. reflexivity. Qed.

(** Scenario B of the specification. *)
Example scenario_B :
  generate (Samples.on "fill") Samples.fill =
  (Returned 0,
   prologue ++
   "  char buf[1024];" ++ endl ++
   "  klee_make_symbolic(buf, sizeof(buf), " ++ dquote ++ "buf" ++ dquote
     ++ ");" ++ endl ++
   "  fill(buf);" ++ endl ++
   epilogue).
Proof. reflexivity. Qed.

(** A function without formal parameters. *)
Example harness_of_tick :
  generate (Samples.on "tick") Samples.tick =
  (Returned 0, prologue ++ "  tick(" ++ epilogue).
Proof. reflexivity. Qed.

(** A declaration has no entry block to read. *)
Example harness_of_declaration :
  generate (Samples.on "puts")
           (mkFunction "puts" [mkArgument (PointerTy (IntegerTy 8))] []) =
  (Crashed NoEntryBlock, prologue).
Proof. reflexivity. Qed.

(** What the casts make of operand 1 of a call. *)
Example casts_on_operand_1 :
  variable_name (mkCallee "llvm.dbg.declare" dbg_declare)
    [MetadataAsValue (ValueAsMetadata (PointerTy (IntegerTy 32)));
     MetadataAsValue (DILocalVariable "n");
     MetadataAsValue DIExpression] = inr "n" /\
  variable_name (mkCallee "abort" not_intrinsic) [] =
    inl OperandOutOfRange /\
  variable_name (mkCallee "free" not_intrinsic)
    [PlainValue (PointerTy (IntegerTy 8))] = inl NotMetadataAsValue /\
  variable_name (mkCallee "llvm.experimental.noalias.scope.decl"
                          (other_intrinsic "noalias.scope.decl"))
    [MetadataAsValue DIExpression;
     MetadataAsValue (ValueAsMetadata (IntegerTy 32))] = inl NotMDNode /\
  variable_name (mkCallee "llvm.dbg.label" dbg_label)
    [MetadataAsValue (DILabel "top"); MetadataAsValue (DILabel "top")] =
    inl NotDILocalVariable.
Proof. repeat split. Qed.

(** A file of two modules, the second loaded with a warning: one
    harness after the other, and the warning on the error stream. *)
Example harness_of_two_modules :
  main MoreSamples.plain "llvm-klee" (inr (Samples.on "add"))
       (inr [MoreSamples.quiet (Samples.module_of [Samples.add]);
             mkLoad [MoreSamples.stale_debug_info]
                    (inr (Samples.module_of [Samples.fill; Samples.add]))])
  =
  {| status := Returned 0;
     cout := snd (generate (Samples.on "add") Samples.add) ++
             snd (generate (Samples.on "add") Samples.add);
     cerr := "llvm-klee: warning: ignoring invalid debug info in in.bc"
             ++ endl |}.
Proof. reflexivity. Qed.

(** An error among the diagnostics of a load ends the run in the
    handler, before the module is looked at. *)
Example error_diagnostic_ends_the_run :
  main MoreSamples.plain "llvm-klee" (inr (Samples.on "add"))
       (inr [mkLoad [MoreSamples.stale_debug_info;
                     mkDiagnosticInfo DS_Error "invalid record";
                     MoreSamples.stale_debug_info]
                    (inr (Samples.module_of [Samples.add]))])
  =
  {| status := Exited 1;
     cout := "";
     cerr := "llvm-klee: warning: ignoring invalid debug info in in.bc"
             ++ endl ++ "llvm-klee: error: invalid record" ++ endl |}.
Proof. reflexivity. Qed.

(* ===================================================================== *)
(** ** The call expression (C1) *)
(* ===================================================================== *)

(** Claim C1, at its boundary case.  For a function without formal
    parameters the claim asks for a well-formed call.  The generator
    writes the name and the opening parenthesis and then the epilogue:
    the closing [");"] is written by the loop over the names, after the
    last of them, and without a name that loop does not run.  The text
    is therefore not the harness with the closed call [name();]. *)
Theorem zero_parameters_call_left_open (cl : Given) (name : string)
        (BB : BasicBlock) (BBs : list BasicBlock) :
  let F := mkFunction name [] (BB :: BBs) in
  generate cl F =
    (Returned 0, prologue ++ ("  " ++ FunctionName cl ++ "(") ++ epilogue) /\
  generate cl F <>
    (Returned 0,
     prologue ++ ("  " ++ FunctionName cl ++ "();" ++ endl) ++ epilogue).
Proof.
  intros F. split; [apply generate_no_parameter|].
  unfold F. rewrite generate_no_parameter. intros H. injection H as H.
  rewrite !append_assoc in H.
  apply (append_inv_head (FunctionName cl)) in H. discriminate H.
Qed.

(* ===================================================================== *)
(** ** Which instructions the scan takes for records (C2) *)
(* ===================================================================== *)

(** Claim C2, at two inputs.  The scan takes every call instruction for
    a record (line 191 tests [CallInst]).  A call to an ordinary function
    that comes before the records is not skipped: the cast of its
    operand 1 fails and the run ends there, where skipping it would have
    produced the harness.  A call to another intrinsic whose operand 1 is
    a local variable is bound as if it were a record. *)
Theorem call_to_other_function_not_skipped :
  let cl := Samples.on "twice" in
  let body (BB : BasicBlock) := mkFunction "twice" [Samples.i32] [BB] in
  debug_declaration_record Samples.call_foo = false /\
  isa_CallInst Samples.call_foo = true /\
  generate cl (body [Samples.call_foo; Samples.declare "x"; Samples.ret]) =
    (Crashed NotMetadataAsValue, prologue) /\
  generate cl (body [Samples.declare "x"; Samples.ret]) =
    (Returned 0,
     prologue ++ emit_declaration cl (IntegerTy 32) "x" ++
     ("  twice(x);" ++ endl) ++ epilogue) /\
  debug_declaration_record (Samples.addr "tmp") = false /\
  generate cl (body [Samples.addr "tmp"; Samples.declare "x"; Samples.ret]) =
    (Returned 0,
     prologue ++ emit_declaration cl (IntegerTy 32) "tmp" ++
     ("  twice(tmp);" ++ endl) ++ epilogue).
Proof.
  repeat split; reflexivity.
Qed.

(* ===================================================================== *)
(** ** Fewer records than formal parameters (C3) *)
(* ===================================================================== *)

(** Claim C3 fails: a function with one formal parameter and no record
    is not rejected.  The run returns 0 and the harness holds a call
    without its argument. *)
Lemma undercount_is_not_rejected :
  let F := Samples.twice in
  (List.length (calls [Samples.ret]) < List.length (Arguments F))%nat /\
  generate (Samples.on "twice") F =
    (Returned 0, prologue ++ ("  twice(") ++ epilogue).
Proof.
  split; [simpl; lia | reflexivity].
Qed.

(** Claim C3, amended.  When every call of the entry block names a local
    variable and there are fewer of them than formal parameters, the
    generator does not reject: the scan ends without a failure, with
    exactly the names found; the run returns 0; the harness declares
    the names found, against the first formal parameters, and goes on
    to the call line, written from those names alone, and to the
    epilogue. *)
Theorem undercount_emits_bound_names_only (cl : Given) (F : Function)
        (BB : BasicBlock) (BBs : list BasicBlock) (names : list string) :
  fits_unsigned F ->
  BasicBlocks F = BB :: BBs ->
  calls BB = map inr names ->
  (List.length names < List.length (Arguments F))%nat ->
  entry_loop cl F (arg_size_of F) BB scan_start =
    (mkScan (Z.of_nat (List.length names)) names
            (declarations cl (Arguments F) names), None) /\
  generate cl F =
    (Returned 0,
     prologue ++ declarations cl (Arguments F) names ++
     emit_call cl (arg_size_of F) names ++ epilogue).
Proof.
  intros Hfits Hbody Hnamed Hlen.
  pose proof (arg_size_of_fits F Hfits) as HP.
  assert (Hreach : firstn (Z.to_nat (arg_size_of F)) (calls BB) =
                   map inr names).
  { rewrite Hnamed. apply firstn_all2. rewrite length_map. lia. }
  split.
  - now apply entry_loop_named.
  - now apply (generate_named cl F BB BBs names).
Qed.

Lemma undercount_emits_bound_names_only_witness :
  generate (Samples.on "add")
           (mkFunction "add" [Samples.i32; Samples.i32]
                       [[Samples.declare "a"; Samples.ret]]) =
    (Returned 0,
     prologue ++ emit_declaration (Samples.on "add") (IntegerTy 32) "a" ++
     ("  add(a, ") ++ epilogue).
Proof.
  destruct (undercount_emits_bound_names_only (Samples.on "add")
              (mkFunction "add" [Samples.i32; Samples.i32]
                          [[Samples.declare "a"; Samples.ret]])
              [Samples.declare "a"; Samples.ret] [] ["a"])
    as [_ Hrun].
  - reflexivity.
  - reflexivity.
  - reflexivity.
  - simpl. lia.
  - exact Hrun.
Defined.

(* ===================================================================== *)
(** ** The declaration of a bound parameter (C4, C5, C6, C10) *)
(* ===================================================================== *)

(** Claim C4 fails: a formal parameter of type [float] and one of type
    [i24] are declared, as [i0] and as [i24], and the run returns 0. *)
Lemma unsupported_type_is_declared :
  generate (Samples.on "half") Samples.half =
    (Returned 0,
     prologue ++
     "  i0 x;" ++ endl ++
     "  klee_make_symbolic(&x, sizeof(x), " ++ dquote ++ "x" ++ dquote
       ++ ");" ++ endl ++
     "  half(x);" ++ endl ++
     epilogue) /\
  generate (Samples.on "odd") Samples.odd =
    (Returned 0,
     prologue ++
     "  i24 x;" ++ endl ++
     "  klee_make_symbolic(&x, sizeof(x), " ++ dquote ++ "x" ++ dquote
       ++ ");" ++ endl ++
     "  odd(x);" ++ endl ++
     epilogue).
Proof.
  split; reflexivity.
Qed.

(** Claim C4, amended.  The selection does not fail on any static type.
    A bound parameter whose type is not a pointer is declared in the
    harness as [i<W> name;], followed by the symbolization call on
    [&name], where [W] is the bit width of an integer type, whatever it
    is, and 0 for every type that is not an integer; and how the run
    ends does not depend on the types of the formal parameters. *)
Theorem non_pointer_parameter_declared_by_width
        (cl : Given) (F : Function) (BB : BasicBlock)
        (BBs : list BasicBlock) (earlier : list string) (name : string)
        (arg : Argument) :
  BasicBlocks F = BB :: BBs ->
  firstn (S (List.length earlier)) (calls BB) =
    map inr (earlier ++ [name]) ->
  Z.of_nat (List.length earlier) < arg_size_of F ->
  nth_error (Arguments F) (List.length earlier) = Some arg ->
  isPointerTy (getType arg) = false ->
  (exists tail : string,
      snd (generate cl F) =
      prologue ++ declarations cl (Arguments F) earlier ++
      ("  i" ++ decimal (size_of_type (getType arg)) ++ " " ++ name ++ ";"
         ++ endl ++
       "  klee_make_symbolic(&" ++ name ++ ", sizeof(" ++ name ++ "), " ++
         dquote ++ name ++ dquote ++ ");" ++ endl) ++ tail) /\
  (forall w : Z, getType arg = IntegerTy w -> size_of_type (getType arg) = w) /\
  (isIntegerTy (getType arg) = false -> size_of_type (getType arg) = 0) /\
  (forall F' : Function,
      BasicBlocks F' = BasicBlocks F ->
      List.length (Arguments F') = List.length (Arguments F) ->
      fst (generate cl F') = fst (generate cl F)).
Proof.
  intros Hbody Hnamed Hlt Hnth Hptr. repeat split.
  - destruct (harness_holds_declaration cl F BB BBs earlier name arg
                Hbody Hnamed Hlt Hnth) as [tail Htail].
    exists tail. rewrite Htail. unfold emit_declaration. rewrite Hptr.
    reflexivity.
  - intros w Hw. now rewrite Hw.
  - intros Hint. unfold size_of_type. now rewrite Hint.
  - intros F' Hb Hl. now apply generate_same_outcome.
Qed.

Lemma non_pointer_parameter_declared_by_width_witness :
  exists tail : string,
    snd (generate (Samples.on "half") Samples.half) =
    prologue ++
    ("  i0 x;" ++ endl ++
     "  klee_make_symbolic(&x, sizeof(x), " ++ dquote ++ "x" ++ dquote
       ++ ");" ++ endl) ++ tail.
Proof.
  destruct (non_pointer_parameter_declared_by_width
              (Samples.on "half") Samples.half
              [Samples.declare "x"; Samples.ret] [] [] "x"
              (mkArgument FloatTy))
    as [Hdecl _].
  - reflexivity.
  - reflexivity.
  - reflexivity.
  - reflexivity.
  - reflexivity.
  - exact Hdecl.
Defined.

(** Claim C5.  A bound parameter of pointer type, whatever it points to,
    is declared in the harness as a [char] array whose extent is the
    value of the [-s] option, 1024 when the option is not given; the
    symbolization call that follows passes the array, [sizeof] of the
    array, and the name of the variable between double quotes. *)
Theorem pointer_parameter_gets_buffer
        (cl : Given) (F : Function) (BB : BasicBlock)
        (BBs : list BasicBlock) (earlier : list string) (name : string)
        (arg : Argument) (pointee : Ty) :
  BasicBlocks F = BB :: BBs ->
  firstn (S (List.length earlier)) (calls BB) =
    map inr (earlier ++ [name]) ->
  Z.of_nat (List.length earlier) < arg_size_of F ->
  nth_error (Arguments F) (List.length earlier) = Some arg ->
  getType arg = PointerTy pointee ->
  (exists tail : string,
      snd (generate cl F) =
      prologue ++ declarations cl (Arguments F) earlier ++
      ("  char " ++ name ++ "[" ++ decimal (ArraySize cl) ++ "];" ++ endl ++
       "  klee_make_symbolic(" ++ name ++ ", sizeof(" ++ name ++ "), " ++
         dquote ++ name ++ dquote ++ ");" ++ endl) ++ tail) /\
  read_decimal (decimal (ArraySize cl)) = Some (ArraySize cl) /\
  ArraySize cl = match given_s cl with Some v => v | None => 1024 end.
Proof.
  intros Hbody Hnamed Hlt Hnth Hptr. repeat split.
  - destruct (harness_holds_declaration cl F BB BBs earlier name arg
                Hbody Hnamed Hlt Hnth) as [tail Htail].
    exists tail. rewrite Htail. unfold emit_declaration. rewrite Hptr.
    reflexivity.
  - apply read_decimal_decimal.
Qed.

Lemma pointer_parameter_gets_buffer_witness :
  exists tail : string,
    snd (generate (Samples.on "fill") Samples.fill) =
    prologue ++
    ("  char buf[1024];" ++ endl ++
     "  klee_make_symbolic(buf, sizeof(buf), " ++ dquote ++ "buf" ++ dquote
       ++ ");" ++ endl) ++ tail.
Proof.
  destruct (pointer_parameter_gets_buffer
              (Samples.on "fill") Samples.fill
              [Samples.alloca; Samples.store; Samples.declare "buf";
               Samples.ret]
              [] [] "buf" (mkArgument (PointerTy (IntegerTy 8)))
              (IntegerTy 8))
    as [Hdecl _].
  - reflexivity.
  - reflexivity.
  - reflexivity.
  - reflexivity.
  - reflexivity.
  - exact Hdecl.
Defined.

(** *** The sized-integer aliases *)

(** The prologue holds these definitions and no other. *)
Lemma prologue_defines :
  prologue =
  ("#include <stdint.h>" ++ endl ++
   "#include <stdlib.h>" ++ endl ++
   endl ++
   "#ifdef __KLEE__" ++ endl ++
   "#include <klee/klee.h>" ++ endl ++
   "#endif" ++ endl ++
   endl) ++
  String.concat "" (map define aliases) ++
  (endl ++
   "int main(int argc, char** argv) {" ++ endl ++
   "#ifdef __KLEE__" ++ endl).
Proof. reflexivity. Qed.



(** *** A buffer size that is not positive *)

(** Claim C10.  The value of [-s], a signed 32-bit integer, is not
    checked.  When it is zero or negative the run ends as it does with
    any other value, and the declaration of a bound parameter of pointer
    type is in the harness with that value between the brackets, digit
    for digit, with its minus sign when it is negative: a bound that
    reads back as the value given, which is not positive. *)
Theorem non_positive_array_size_is_emitted
        (cl : Given) (F : Function) (BB : BasicBlock)
        (BBs : list BasicBlock) (earlier : list string) (name : string)
        (arg : Argument) (pointee : Ty) (v : Z) :
  given_s cl = Some v ->
  int32_range v ->
  v <= 0 ->
  BasicBlocks F = BB :: BBs ->
  firstn (S (List.length earlier)) (calls BB) =
    map inr (earlier ++ [name]) ->
  Z.of_nat (List.length earlier) < arg_size_of F ->
  nth_error (Arguments F) (List.length earlier) = Some arg ->
  getType arg = PointerTy pointee ->
  (exists tail : string,
      snd (generate cl F) =
      prologue ++ declarations cl (Arguments F) earlier ++
      ("  char " ++ name ++ "[" ++ decimal v ++ "];" ++ endl ++
       "  klee_make_symbolic(" ++ name ++ ", sizeof(" ++ name ++ "), " ++
         dquote ++ name ++ dquote ++ ");" ++ endl) ++ tail) /\
  (forall cl' : Given, fst (generate cl F) = fst (generate cl' F)) /\
  decimal v = (if v =? 0 then "0" else "-" ++ decimal (- v)) /\
  read_decimal (decimal v) = Some v.
Proof.
  intros Hs Hrange Hv Hbody Hnamed Hlt Hnth Hptr. repeat split.
  - destruct (harness_holds_declaration cl F BB BBs earlier name arg
                Hbody Hnamed Hlt Hnth) as [tail Htail].
    exists tail. rewrite Htail.
    unfold emit_declaration, emit_pointer, ArraySize. rewrite Hptr, Hs.
    reflexivity.
  - intros cl'. now apply generate_same_outcome.
  - destruct v as [|p|p]; [reflexivity | lia | reflexivity].
  - apply read_decimal_decimal.
Qed.

Lemma non_positive_array_size_is_emitted_witness :
  exists tail : string,
    snd (generate (mkGiven (Some "in.bc") (Some "fill") (Some (-5)) None)
                  Samples.fill) =
    prologue ++
    ("  char buf[-5];" ++ endl ++
     "  klee_make_symbolic(buf, sizeof(buf), " ++ dquote ++ "buf" ++ dquote
       ++ ");" ++ endl) ++ tail.
Proof.
  destruct (non_positive_array_size_is_emitted
              (mkGiven (Some "in.bc") (Some "fill") (Some (-5)) None)
              Samples.fill
              [Samples.alloca; Samples.store; Samples.declare "buf";
               Samples.ret]
              [] [] "buf" (mkArgument (PointerTy (IntegerTy 8)))
              (IntegerTy 8) (-5))
    as [Hdecl _].
  - reflexivity.
  - unfold int32_range. lia.
  - lia.
  - reflexivity.
  - reflexivity.
  - reflexivity.
  - reflexivity.
  - reflexivity.
  - exact Hdecl.
Defined.

(** The whole run with [-s 0] and with [-s -5]: it returns 0. *)
Example run_with_array_size_zero :
  generate (mkGiven None (Some "fill") (Some 0) None) Samples.fill =
  (Returned 0,
   prologue ++
   "  char buf[0];" ++ endl ++
   "  klee_make_symbolic(buf, sizeof(buf), " ++ dquote ++ "buf" ++ dquote
     ++ ");" ++ endl ++
   "  fill(buf);" ++ endl ++
   epilogue).
Proof. reflexivity. Qed.

Example run_with_negative_array_size :
  generate (mkGiven None (Some "fill") (Some (-5)) None) Samples.fill =
  (Returned 0,
   prologue ++
   "  char buf[-5];" ++ endl ++
   "  klee_make_symbolic(buf, sizeof(buf), " ++ dquote ++ "buf" ++ dquote
     ++ ");" ++ endl ++
   "  fill(buf);" ++ endl ++
   epilogue).
Proof. reflexivity. Qed.

(* ===================================================================== *)
(** ** A name that no function of the module has (C7) *)
(* ===================================================================== *)

Lemma report_no_error (lib : Support) (Prefix : string)
      (DIs : list DiagnosticInfo) :
  no_error DIs -> snd (report lib Prefix DIs) = None.
Proof.
  induction 1 as [|DI DIs Hsev _ IH]; [reflexivity|].
  cbn [report handleDiagnostics]. destruct (getSeverity DI);
    [contradiction | exact IH | exact IH | exact IH].
Qed.

(** Claim C7, at every module without a function of the name given.
    A file that cannot be read ends the run through [ExitOnErr], with
    status 1 and a message that begins with the name of the tool.  The
    lookup of the function has no such check: its null result is
    dereferenced by [arg_size] on the line after it, so the run ends in
    that dereference, with nothing on the output; the error stream
    holds what the handler wrote for the diagnostics of the load and the
    report of the dying process, and no message of the tool about the
    name. *)
Theorem unresolved_function_is_dereferenced
        (lib : Support) (cl : Given) (argv0 : string)
        (DIs : list DiagnosticInfo) (M : Module) (rest : list Load) :
  getFunction M (FunctionName cl) = None ->
  no_error DIs ->
  main lib argv0 (inr cl) (inr (mkLoad DIs (inr M) :: rest)) =
    {| status := Crashed NullFunction; cout := "";
       cerr := lines_of lib argv0 DIs ++ crash_report lib NullFunction |} /\
  forall err : string,
    main lib argv0 (inr cl) (inl err) =
      {| status := Exited 1; cout := "";
         cerr := argv0 ++ ": error: " ++ err ++ endl |}.
Proof.
  intros Hnone Hquiet. split.
  - unfold main, run, lines_of. cbn [modules_loop reported loaded].
    pose proof (report_no_error lib argv0 DIs Hquiet) as Hrep.
    destruct (report lib argv0 DIs) as [lines stop]. cbn [snd fst] in *.
    subst stop. unfold process_module.
    change (getFunction (setTargetTriple M (TargetTriple cl))
                        (FunctionName cl))
      with (getFunction M (FunctionName cl)).
    rewrite Hnone. reflexivity.
  - intros err. unfold main, run. now rewrite append_assoc.
Qed.

Lemma unresolved_function_is_dereferenced_witness :
  main MoreSamples.plain "llvm-klee" (inr (Samples.on "missing"))
       (inr [MoreSamples.quiet
               (Samples.module_of [Samples.add; Samples.fill])]) =
    {| status := Crashed NullFunction; cout := "";
       cerr := "PLEASE submit a bug report" ++ endl |}.
Proof.
  apply (unresolved_function_is_dereferenced
           MoreSamples.plain (Samples.on "missing") "llvm-klee" []
           (Samples.module_of [Samples.add; Samples.fill]) []).
  - reflexivity.
  - constructor.
Defined.

(* ===================================================================== *)
(** ** The invariant of the scan (C8) *)
(* ===================================================================== *)

(** Claim C8, at two entry blocks without a debug-declare or
    debug-value call.  The claim asks that such a block give the empty
    binding list.  The first block holds a call to [llvm.dbg.addr]: the
    scan, which takes every call for a record (line 191), binds its
    variable to the formal parameter and declares it.  The second holds
    a call to an ordinary function: the scan does not come to an end, it
    dies in the cast on operand 1 of that call. *)
Theorem block_without_record_binds_a_name :
  let cl := Samples.on "twice" in
  let F (BB : BasicBlock) := mkFunction "twice" [Samples.i32] [BB] in
  let other := [Samples.addr "tmp"; Samples.ret] in
  let ordinary := [Samples.call_foo; Samples.ret] in
  forallb (fun Inst => negb (debug_declaration_record Inst)) other = true /\
  entry_loop cl (F other) (arg_size_of (F other)) other scan_start =
    (mkScan 1 ["tmp"] (emit_declaration cl (IntegerTy 32) "tmp"), None) /\
  forallb (fun Inst => negb (debug_declaration_record Inst)) ordinary = true /\
  entry_loop cl (F ordinary) (arg_size_of (F ordinary)) ordinary scan_start =
    (scan_start, Some NotMetadataAsValue) /\
  generate cl (F ordinary) = (Crashed NotMetadataAsValue, prologue).
Proof.
  repeat split; reflexivity.
Qed.

(** Property X14.  The scan, with the calls of the block as what it
    takes for records (line 191).  In every turn that binds a name, the
    name goes to position [idx] of the list, the names bound before stay
    where they are, and [idx] grows by one: a position receives one name
    and the positions are filled in increasing order.  At the end of the
    scan [idx] is the number of names and is at most the number P of
    formal parameters; the k-th name is that of the k-th call of the
    block, in program order, and is declared against the k-th formal
    parameter; a scan that is not cut ends with P names or with the
    last call of the block; a scan that is cut was cut, with fewer than
    P names, by the casts on the call that follows the calls it has
    bound; once P names are bound whatever follows in the block is not
    read; and a block without a call gives the empty list. *)
Theorem scan_of_calls_binds_in_order_and_stops (cl : Given) (F : Function)
        (BB : BasicBlock) :
  let P := arg_size_of F in
  let st' := fst (entry_loop cl F P BB scan_start) in
  let cut := snd (entry_loop cl F P BB scan_start) in
  (forall (st : Scan) (name : string),
      scan_inv F st ->
      idx st < P ->
      idx (bind cl F name st) = idx st + 1 /\
      nth_error (args (bind cl F name st)) (Z.to_nat (idx st)) = Some name /\
      firstn (Z.to_nat (idx st)) (args (bind cl F name st)) = args st /\
      scan_inv F (bind cl F name st)) /\
  idx st' = Z.of_nat (List.length (args st')) /\
  idx st' <= P /\
  map inr (args st') = firstn (List.length (args st')) (calls BB) /\
  out st' = declarations cl (Arguments F) (args st') /\
  (cut = None ->
   idx st' = P \/ List.length (args st') = List.length (calls BB)) /\
  (forall why : Failure,
      cut = Some why ->
      idx st' < P /\
      nth_error (calls BB) (List.length (args st')) = Some (inl why)) /\
  (forall post : list Instruction,
      idx st' = P ->
      entry_loop cl F P (BB ++ post) scan_start =
      entry_loop cl F P BB scan_start) /\
  (forallb (fun Inst => negb (isa_CallInst Inst)) BB = true ->
   args st' = [] /\ cut = None).
Proof.
  intros P st' cut. pose proof (arg_size_of_range F) as HP.
  destruct (entry_loop cl F P BB scan_start) as [st1 r] eqn:E.
  destruct (entry_loop_spec cl F BB scan_start st1 r (scan_inv_start F) E)
    as (new & Hargs & [Hidx Hle] & Hout & Hmap & Hend).
  simpl in Hargs, Hout. subst st' cut new. cbn [fst snd].
  split; [| repeat split].
  - intros st name [Hcount Hbound] Hlt. unfold scan_inv, bind.
    cbn [idx args].
    rewrite unsigned_small by (unfold P in *; lia).
    rewrite Hcount, Nat2Z.id.
    split; [reflexivity|]. split; [|split; [|split]].
    + rewrite nth_error_app2 by lia. now rewrite Nat.sub_diag.
    + rewrite firstn_app, Nat.sub_diag, firstn_all. apply app_nil_r.
    + rewrite length_app. simpl. lia.
    + unfold P in *. lia.
  - exact Hidx.
  - exact Hle.
  - exact Hmap.
  - exact Hout.
  - intros ->. exact Hend.
  - subst r. apply Hend.
  - subst r. apply Hend.
  - intros post Hfull. rewrite <- E. apply entry_loop_stops.
    fold P. now rewrite E.
  - pose proof (entry_loop_no_call cl F BB scan_start H) as Hno.
    fold P in Hno. rewrite E in Hno. now injection Hno as ->.
  - pose proof (entry_loop_no_call cl F BB scan_start H) as Hno.
    fold P in Hno. rewrite E in Hno. now injection Hno.
Qed.

(** The scan of [add]: two names, at positions 0 and 1, in the order of
    the two records. *)
Example scan_of_add :
  entry_loop (Samples.on "add") Samples.add 2
             [Samples.alloca; Samples.alloca; Samples.store;
              Samples.declare "a"; Samples.store; Samples.declare "b";
              Samples.declare "c"; Samples.ret]
             scan_start =
  (mkScan 2 ["a"; "b"]
     (emit_declaration (Samples.on "add") (IntegerTy 32) "a" ++
      emit_declaration (Samples.on "add") (IntegerTy 32) "b"),
   None).
Proof. reflexivity. Qed.

(* ===================================================================== *)
(** ** What a turn does to the module (C9) *)
(* ===================================================================== *)

(** In a module whose functions have different names the lookup gives
    the function of the name asked, whichever place it has in the
    list. *)
Lemma getFunction_unique (M : Module) (Name : string) (F : Function) :
  unique_names M ->
  (getFunction M Name = Some F <->
   Name <> "" /\ In F (FunctionList M) /\ getName F = Name).
Proof.
  unfold unique_names, getFunction. intros Huniq.
  destruct (String.eqb_spec Name "") as [->|Hname].
  - split; [discriminate | intros [H _]; contradiction].
  - split.
    + intros Hfind. apply find_some in Hfind as [Hin Heq].
      apply String.eqb_eq in Heq. now repeat split.
    + intros (_ & Hin & Heq).
      induction (FunctionList M) as [|G Fs IH]; [contradiction|].
      cbn [find map filter] in *.
      destruct (String.eqb_spec (getName G) Name) as [HG|HG].
      * destruct Hin as [->|Hin]; [reflexivity|]. exfalso.
        rewrite HG in Huniq.
        destruct (String.eqb_spec Name "") as [|_]; [contradiction|].
        cbn [negb] in Huniq. apply NoDup_cons_iff in Huniq as [Hnot _].
        apply Hnot. apply filter_In. split.
        -- rewrite <- Heq. now apply in_map.
        -- destruct (String.eqb_spec Name ""); [contradiction|reflexivity].
      * destruct Hin as [->|Hin]; [contradiction|].
        apply IH; [|exact Hin].
        destruct (negb (String.eqb (getName G) ""));
          [now apply NoDup_cons_iff in Huniq | exact Huniq].
Qed.

(** Claim C9.  After a turn of the loop the target triple of the module
    is the value of the [-t] option, which is x86_64-pc-linux-gnu when
    the option is not given, whatever the triple was before and however
    the turn ends; the identifier, the source file name, the data layout
    and the functions of the module are as they were. *)
Theorem target_triple_is_overwritten (cl : Given) (M : Module) :
  let M' := fst (process_module cl M) in
  TargetTripleStr M' = TargetTriple cl /\
  TargetTriple cl =
    match given_t cl with
    | Some triple => triple
    | None => "x86_64-pc-linux-gnu"
    end /\
  ModuleID M' = ModuleID M /\
  SourceFileName M' = SourceFileName M /\
  DataLayoutStr M' = DataLayoutStr M /\
  FunctionList M' = FunctionList M.
Proof.
  unfold process_module.
  destruct (getFunction (setTargetTriple M (TargetTriple cl))
                        (FunctionName cl)) as [F|];
    cbn [fst]; repeat split.
Qed.

(** The triple of a module built for another target is replaced, with
    no [-t] on the command line. *)
Example triple_of_sample_module :
  TargetTripleStr (Samples.module_of [Samples.add]) =
    "aarch64-unknown-linux-gnu" /\
  TargetTripleStr
    (fst (process_module (Samples.on "add")
                         (Samples.module_of [Samples.add]))) =
    "x86_64-pc-linux-gnu".
Proof. split; reflexivity. Qed.

(* ===================================================================== *)
(** ** Further properties of the generator *)
(* ===================================================================== *)

Lemma calls_app (BB post : list Instruction) :
  calls (BB ++ post) = (calls BB ++ calls post)%list.
Proof.
  induction BB as [|Inst BB IH]; [reflexivity|].
  destruct Inst; simpl; now rewrite IH.
Qed.

(** The scan reads of the function its formal parameters only. *)
Lemma entry_loop_same_arguments (cl : Given) (F F' : Function) (P : Z) :
  Arguments F = Arguments F' ->
  forall (BB : list Instruction) (st : Scan),
    entry_loop cl F P BB st = entry_loop cl F' P BB st.
Proof.
  intros Hargs. induction BB as [|Inst BB IH]; intros st; [reflexivity|].
  simpl. destruct (P <=? idx st); [reflexivity|].
  destruct Inst as [C ArgOperands|Opcode]; [|apply IH].
  destruct (variable_name C ArgOperands) as [why|name]; [reflexivity|].
  unfold bind. rewrite Hargs. apply IH.
Qed.

(** The scan of a block is the scan of its calls. *)
Lemma entry_loop_calls_only (cl : Given) (F : Function) (P : Z) :
  forall (BB : list Instruction) (st : Scan),
    entry_loop cl F P BB st = entry_loop cl F P (filter isa_CallInst BB) st.
Proof.
  induction BB as [|Inst BB IH]; intros st; [reflexivity|].
  destruct Inst as [C ArgOperands|Opcode].
  - simpl. destruct (P <=? idx st); [reflexivity|].
    destruct (variable_name C ArgOperands); [reflexivity | apply IH].
  - destruct (Z.le_gt_cases P (idx st)) as [Hfull|Hlt].
    + now rewrite !entry_loop_full.
    + rewrite entry_loop_skip by exact Hlt. apply IH.
Qed.

(** Names that are cut by a failure are fewer than those before it. *)
Lemma prefix_before_failure (new names : list string) (why : Failure)
      (later : list (Failure + string)) :
  map inr new =
    firstn (List.length new) (map inr names ++ inl why :: later) ->
  (List.length new <= List.length names)%nat.
Proof.
  intros Hmap. destruct (Nat.le_gt_cases (List.length new) (List.length names))
    as [Hle|Hgt]; [exact Hle|]. exfalso.
  assert (Hnth : nth_error (map (@inr Failure string) new)
                           (List.length names) =
                 Some (inl why)).
  { rewrite Hmap, nth_error_firstn.
    destruct (Nat.ltb_spec (List.length names) (List.length new)) as [_|Hge];
      [|lia].
    rewrite nth_error_app2 by (rewrite length_map; lia).
    now rewrite length_map, Nat.sub_diag. }
  rewrite nth_error_map in Hnth.
  destruct (nth_error new (List.length names)); discriminate.
Qed.

(** Property X2.  A call whose operand 1 does not name a variable, reached while a
    formal parameter is still unbound, ends the run in the cast that
    fails: what was written is the prologue and the declarations of the
    names bound before it; there is no call line and no epilogue. *)
Theorem failed_cast_cuts_the_harness (cl : Given) (F : Function)
        (BB : BasicBlock) (BBs : list BasicBlock) (names : list string)
        (why : Failure) (later : list (Failure + string)) :
  BasicBlocks F = BB :: BBs ->
  calls BB = (map inr names ++ inl why :: later)%list ->
  Z.of_nat (List.length names) < arg_size_of F ->
  generate cl F =
    (Crashed why, prologue ++ declarations cl (Arguments F) names).
Proof.
  intros Hbody Hcalls Hlt. unfold generate. rewrite Hbody.
  destruct (entry_loop cl F (arg_size_of F) BB scan_start) as [st' r] eqn:E.
  destruct (entry_loop_spec cl F BB scan_start st' r (scan_inv_start F) E)
    as (new & Hargs & [Hidx Hle] & Hout & Hmap & Hend).
  simpl in Hargs, Hout. rewrite Hcalls in Hmap, Hend.
  pose proof (prefix_before_failure new names why later Hmap) as Hshort.
  rewrite Hargs in Hidx.
  assert (Hnew : new = firstn (List.length new) names).
  { apply (map_inr_inj (A := Failure)). rewrite Hmap, firstn_app.
    replace (List.length new - List.length (map inr names))%nat with 0%nat
      by (rewrite length_map; lia).
    now rewrite firstn_O, app_nil_r, firstn_map. }
  destruct r as [why'|].
  - destruct Hend as [_ Hnth].
    destruct (Nat.eq_dec (List.length new) (List.length names)) as [Heq|Hne].
    + rewrite Heq in Hnth.
      rewrite nth_error_app2 in Hnth by (rewrite length_map; lia).
      rewrite length_map, Nat.sub_diag in Hnth. injection Hnth as <-.
      rewrite Heq, firstn_all in Hnew. now rewrite Hout, Hnew.
    + exfalso.
      rewrite nth_error_app1 in Hnth by (rewrite length_map; lia).
      rewrite nth_error_map in Hnth.
      destruct (nth_error names (List.length new)); discriminate.
  - exfalso. destruct Hend as [Hfull|Hall].
    + lia.
    + rewrite length_app, length_map in Hall. simpl in Hall. lia.
Qed.

Lemma failed_cast_cuts_the_harness_witness :
  generate (Samples.on "scale")
    (mkFunction "scale" [Samples.i32; Samples.i32]
       [[Samples.declare "v"; Samples.call_foo; Samples.declare "k"]]) =
  (Crashed NotMetadataAsValue,
   prologue ++ emit_declaration (Samples.on "scale") (IntegerTy 32) "v").
Proof.
  rewrite (failed_cast_cuts_the_harness (Samples.on "scale")
             (mkFunction "scale" [Samples.i32; Samples.i32]
                [[Samples.declare "v"; Samples.call_foo;
                  Samples.declare "k"]])
             [Samples.declare "v"; Samples.call_foo; Samples.declare "k"]
             [] ["v"] NotMetadataAsValue [inr "k"]).
  - reflexivity.
  - reflexivity.
  - reflexivity.
  - reflexivity.
Defined.

(** Property X3.  Instructions of the entry block that are not calls have no effect
    on the run: the harness of a function is that of the function with
    such instructions removed from its entry block. *)
Theorem other_instructions_have_no_effect (cl : Given) (name : string)
        (formals : list Argument) (BB : BasicBlock) (BBs : list BasicBlock) :
  generate cl (mkFunction name formals (BB :: BBs)) =
  generate cl (mkFunction name formals (filter isa_CallInst BB :: BBs)).
Proof.
  unfold generate. cbn [BasicBlocks].
  rewrite (entry_loop_calls_only cl _ _ BB).
  rewrite (entry_loop_same_arguments cl
             (mkFunction name formals (BB :: BBs))
             (mkFunction name formals (filter isa_CallInst BB :: BBs)))
    by reflexivity.
  reflexivity.
Qed.

(** Property X4.  Of a function the generator reads the formal parameters and the
    entry block up to the record of the last formal parameter: what
    follows in the entry block, the other blocks, and the name kept in
    the function do not change the harness. *)
Theorem harness_reads_entry_block_up_to_last_record
        (cl : Given) (name name' : string) (formals : list Argument)
        (BB post : BasicBlock) (BBs BBs' : list BasicBlock)
        (names : list string) :
  Z.of_nat (List.length formals) < 2 ^ 32 ->
  firstn (List.length formals) (calls BB) = map inr names ->
  List.length names = List.length formals ->
  generate cl (mkFunction name formals ((BB ++ post)%list :: BBs)) =
  generate cl (mkFunction name' formals (BB :: BBs')).
Proof.
  intros Hfits Hnamed Hlen.
  assert (HP : forall n b, arg_size_of (mkFunction n formals b) =
                           Z.of_nat (List.length formals))
    by (intros; now apply arg_size_of_fits).
  rewrite (generate_named cl
             (mkFunction name formals ((BB ++ post)%list :: BBs))
             (BB ++ post)%list BBs names eq_refl).
  - rewrite (generate_named cl (mkFunction name' formals (BB :: BBs'))
               BB BBs' names eq_refl).
    + cbn [Arguments]. now rewrite !HP.
    + now rewrite HP, Nat2Z.id.
  - rewrite HP, Nat2Z.id, calls_app, firstn_app.
    replace (List.length formals - List.length (calls BB))%nat with 0%nat.
    + now rewrite firstn_O, app_nil_r.
    + assert (Hn : List.length (firstn (List.length formals) (calls BB)) =
                   List.length formals)
        by now rewrite Hnamed, length_map.
      rewrite length_firstn in Hn. lia.
Qed.

Lemma harness_reads_entry_block_up_to_last_record_witness :
  generate (Samples.on "add")
    (mkFunction "add" [Samples.i32; Samples.i32]
       [[Samples.declare "a"; Samples.declare "b"; Samples.call_foo;
         Samples.declare "c"]; [Samples.call_foo]]) =
  generate (Samples.on "add")
    (mkFunction "sum" [Samples.i32; Samples.i32]
       [[Samples.declare "a"; Samples.declare "b"]]).
Proof.
  apply (harness_reads_entry_block_up_to_last_record
           (Samples.on "add") "add" "sum" [Samples.i32; Samples.i32]
           [Samples.declare "a"; Samples.declare "b"]
           [Samples.call_foo; Samples.declare "c"]
           [[Samples.call_foo]] [] ["a"; "b"]).
  - reflexivity.
  - reflexivity.
  - reflexivity.
Defined.

(** *** The options *)

Lemma emit_declaration_same_options (cl cl' : Given) (T : Ty)
      (name : string) :
  ArraySize cl = ArraySize cl' \/ isPointerTy T = false ->
  emit_declaration cl T name = emit_declaration cl' T name.
Proof.
  intros [Hsize|Hptr]; unfold emit_declaration, emit_pointer.
  - now rewrite Hsize.
  - now rewrite Hptr.
Qed.

Lemma args_loop_same_options (cl cl' : Given) (name : string) (k : Z) :
  forall (formals : list Argument) (i : Z),
    ArraySize cl = ArraySize cl' \/
    forallb (fun arg => negb (isPointerTy (getType arg))) formals = true ->
    args_loop cl name k formals i = args_loop cl' name k formals i.
Proof.
  induction formals as [|arg formals IH]; intros i Hsame; [reflexivity|].
  simpl. destruct (k =? i).
  - apply emit_declaration_same_options.
    destruct Hsame as [Hsize|Hptr]; [now left | right].
    simpl in Hptr. apply andb_prop in Hptr as [Hptr _].
    now apply negb_true_iff in Hptr.
  - apply IH. destruct Hsame as [Hsize|Hptr]; [now left | right].
    simpl in Hptr. now apply andb_prop in Hptr as [_ Hptr].
Qed.

(** Property X5.  The harness depends on the command line through the function name
    and, when the function has a formal parameter of pointer type,
    through the array size; the target triple and the input file name
    never change it, and for a function without pointer parameters the
    array size does not either. *)
Theorem harness_depends_on_name_and_array_size (cl cl' : Given)
        (F : Function) :
  FunctionName cl = FunctionName cl' ->
  ArraySize cl = ArraySize cl' \/ no_pointer_parameter F = true ->
  generate cl F = generate cl' F.
Proof.
  intros Hname Hsame.
  assert (Hscan : forall (BB : list Instruction) (st : Scan),
             entry_loop cl F (arg_size_of F) BB st =
             entry_loop cl' F (arg_size_of F) BB st).
  { induction BB as [|Inst BB IH]; intros st; [reflexivity|].
    simpl. destruct (arg_size_of F <=? idx st); [reflexivity|].
    destruct Inst as [C ArgOperands|Opcode]; [|apply IH].
    destruct (variable_name C ArgOperands) as [why|name]; [reflexivity|].
    unfold bind.
    rewrite (args_loop_same_options cl cl' name (idx st) (Arguments F) 0
               Hsame).
    apply IH. }
  unfold generate, emit_call. destruct (BasicBlocks F) as [|BB BBs];
    [reflexivity|].
  now rewrite Hscan, Hname.
Qed.

Lemma harness_depends_on_name_and_array_size_witness :
  generate (mkGiven (Some "a.bc") (Some "add") (Some 64)
                    (Some "riscv64-unknown-elf"))
           Samples.add =
  generate (Samples.on "add") Samples.add.
Proof.
  apply (harness_depends_on_name_and_array_size
           (mkGiven (Some "a.bc") (Some "add") (Some 64)
                    (Some "riscv64-unknown-elf"))
           (Samples.on "add") Samples.add).
  - reflexivity.
  - right. reflexivity.
Defined.

(** *** The loop over the modules *)

(** A turn ends by returning 0 or in one of the unchecked steps; it
    never calls [exit]. *)
Lemma end_of_cases (cl : Given) (M : Module) :
  end_of cl M = Returned 0 \/ exists why, end_of cl M = Crashed why.
Proof.
  unfold end_of, process_module.
  destruct (getFunction _ _) as [F|]; cbn [snd fst];
    [| right; now exists NullFunction].
  unfold generate. destruct (BasicBlocks F) as [|BB BBs];
    [right; now exists NoEntryBlock|].
  destruct (entry_loop cl F (arg_size_of F) BB scan_start) as [st [why|]];
    [right; now exists why | now left].
Qed.

(** Modules that load without an error and whose turns return are
    passed one after the other: their harnesses come first on the
    output, the lines of their diagnostics first on the error stream,
    and the run goes on with the modules that follow. *)
Lemma modules_loop_returned (cl : Given) (lib : Support) (argv0 : string)
      (rest : list Load) :
  forall Ms : list (list DiagnosticInfo * Module),
    Forall (returned_turn cl) Ms ->
    modules_loop cl lib argv0 (map loaded_with Ms ++ rest) =
    {| status := status (modules_loop cl lib argv0 rest);
       cout := harnesses cl Ms ++ cout (modules_loop cl lib argv0 rest);
       cerr := all_lines lib argv0 Ms ++
               cerr (modules_loop cl lib argv0 rest) |}.
Proof.
  induction Ms as [|[DIs M] Ms IH]; intros Hall.
  - cbn. now destruct (modules_loop cl lib argv0 rest).
  - inversion Hall as [|load Ms' [Hquiet HM] HMs]; subst.
    cbn [fst snd] in Hquiet, HM.
    unfold harnesses, all_lines, lines_of.
    cbn [map app modules_loop concat_text loaded_with reported loaded
         fst snd].
    pose proof (report_no_error lib argv0 DIs Hquiet) as Hrep.
    destruct (report lib argv0 DIs) as [lines stop]. cbn [fst snd] in *.
    subst stop. unfold end_of, harness_of in *.
    destruct (snd (process_module cl M)) as [stop text]. cbn [fst snd] in *.
    subst stop. rewrite (IH HMs). cbn [status cout cerr].
    unfold harnesses, all_lines, lines_of, harness_of.
    now rewrite !append_assoc.
Qed.

(** Property X6.  When every module of the file loads without an error
    diagnostic and every turn returns, the run returns 0, the output is
    the harnesses of the modules in the order of the file, and the
    error stream holds the lines the handler wrote for the diagnostics
    of the loads, in that order, and nothing else. *)
Theorem harnesses_are_written_in_file_order (lib : Support) (cl : Given)
        (argv0 : string) (Ms : list (list DiagnosticInfo * Module)) :
  Forall (returned_turn cl) Ms ->
  main lib argv0 (inr cl) (inr (map loaded_with Ms)) =
    {| status := Returned 0;
       cout := harnesses cl Ms;
       cerr := all_lines lib argv0 Ms |}.
Proof.
  intros Hall. unfold main, run.
  rewrite <- (app_nil_r (map loaded_with Ms)).
  rewrite (modules_loop_returned cl lib argv0 [] Ms Hall).
  cbn [modules_loop status cout cerr]. now rewrite !append_nil_r.
Qed.

Lemma harnesses_are_written_in_file_order_witness :
  main MoreSamples.plain "llvm-klee" (inr (Samples.on "add"))
       (inr (map loaded_with
               [([], Samples.module_of [Samples.add]);
                ([MoreSamples.stale_debug_info],
                 Samples.module_of [Samples.fill; Samples.add])])) =
    {| status := Returned 0;
       cout := harness_of (Samples.on "add")
                          (Samples.module_of [Samples.add]) ++
               harness_of (Samples.on "add")
                          (Samples.module_of [Samples.fill; Samples.add]);
       cerr := "llvm-klee: warning: ignoring invalid debug info in in.bc"
               ++ endl |}.
Proof.
  rewrite (harnesses_are_written_in_file_order MoreSamples.plain
             (Samples.on "add") "llvm-klee"
             [([], Samples.module_of [Samples.add]);
              ([MoreSamples.stale_debug_info],
               Samples.module_of [Samples.fill; Samples.add])]).
  - reflexivity.
  - repeat constructor; discriminate.
Defined.

(** Property X7.  A module that does not load, after modules that
    loaded without an error diagnostic and whose turns returned: the
    run exits with status 1; the harnesses of the earlier modules are
    on the output; the error stream holds the lines of the diagnostics
    of the loads, the failing one included, and last the line of
    [ExitOnErr], the name of the tool, [: error: ] and the message; the
    modules that follow are not read. *)
Theorem load_error_exits_after_earlier_harnesses (lib : Support)
        (cl : Given) (argv0 err : string)
        (Ms : list (list DiagnosticInfo * Module))
        (DIs : list DiagnosticInfo) (rest : list Load) :
  Forall (returned_turn cl) Ms ->
  no_error DIs ->
  main lib argv0 (inr cl)
       (inr (map loaded_with Ms ++ mkLoad DIs (inl err) :: rest)%list) =
    {| status := Exited 1;
       cout := harnesses cl Ms;
       cerr := all_lines lib argv0 Ms ++ lines_of lib argv0 DIs ++
               argv0 ++ ": error: " ++ err ++ endl |}.
Proof.
  intros Hall Hquiet. unfold main, run.
  rewrite (modules_loop_returned cl lib argv0 _ Ms Hall).
  cbn [modules_loop reported loaded]. unfold lines_of.
  pose proof (report_no_error lib argv0 DIs Hquiet) as Hrep.
  destruct (report lib argv0 DIs) as [lines stop]. cbn [fst snd] in *.
  subst stop. cbn [status cout cerr].
  now rewrite append_nil_r, !append_assoc.
Qed.

Lemma load_error_exits_after_earlier_harnesses_witness :
  main MoreSamples.plain "llvm-klee" (inr (Samples.on "add"))
       (inr (map loaded_with
               [([MoreSamples.stale_debug_info],
                 Samples.module_of [Samples.add])] ++
             mkLoad [] (inl "Invalid bitcode signature") ::
             [MoreSamples.quiet (Samples.module_of [Samples.add])])%list) =
    {| status := Exited 1;
       cout := harness_of (Samples.on "add")
                          (Samples.module_of [Samples.add]);
       cerr := "llvm-klee: warning: ignoring invalid debug info in in.bc"
               ++ endl ++
               "llvm-klee: error: Invalid bitcode signature" ++ endl |}.
Proof.
  rewrite (load_error_exits_after_earlier_harnesses MoreSamples.plain
             (Samples.on "add") "llvm-klee" "Invalid bitcode signature"
             [([MoreSamples.stale_debug_info],
               Samples.module_of [Samples.add])]
             [] [MoreSamples.quiet (Samples.module_of [Samples.add])]).
  - reflexivity.
  - repeat constructor; discriminate.
  - constructor.
Defined.

(** Property X8.  A module on which the turn ends in an unchecked step,
    after modules that loaded without an error diagnostic and whose
    turns returned: the run ends there; the output holds the harnesses
    of the earlier modules and what the failing turn had written; the
    error stream holds the lines of the diagnostics of the loads and
    then the report of the dying process; the modules that follow are
    not read. *)
Theorem crash_stops_the_loop (lib : Support) (cl : Given) (argv0 : string)
        (Ms : list (list DiagnosticInfo * Module))
        (DIs : list DiagnosticInfo) (M : Module) (why : Failure)
        (rest : list Load) :
  Forall (returned_turn cl) Ms ->
  no_error DIs ->
  end_of cl M = Crashed why ->
  main lib argv0 (inr cl)
       (inr (map loaded_with Ms ++ mkLoad DIs (inr M) :: rest)%list) =
    {| status := Crashed why;
       cout := harnesses cl Ms ++ harness_of cl M;
       cerr := all_lines lib argv0 Ms ++ lines_of lib argv0 DIs ++
               crash_report lib why |}.
Proof.
  intros Hall Hquiet Hcrash. unfold main, run.
  rewrite (modules_loop_returned cl lib argv0 _ Ms Hall).
  cbn [modules_loop reported loaded]. unfold lines_of.
  pose proof (report_no_error lib argv0 DIs Hquiet) as Hrep.
  destruct (report lib argv0 DIs) as [lines stop]. cbn [fst snd] in *.
  subst stop. unfold end_of, harness_of in *.
  destruct (snd (process_module cl M)) as [stop text]. cbn [fst snd] in *.
  subst stop. reflexivity.
Qed.

Lemma crash_stops_the_loop_witness :
  main MoreSamples.plain "llvm-klee" (inr (Samples.on "add"))
       (inr (map loaded_with [([], Samples.module_of [Samples.add])] ++
             mkLoad [MoreSamples.stale_debug_info]
                    (inr (Samples.module_of [Samples.fill])) ::
             [MoreSamples.quiet (Samples.module_of [Samples.add])])%list) =
    {| status := Crashed NullFunction;
       cout := harness_of (Samples.on "add")
                          (Samples.module_of [Samples.add]);
       cerr := "llvm-klee: warning: ignoring invalid debug info in in.bc"
               ++ endl ++ "PLEASE submit a bug report" ++ endl |}.
Proof.
  rewrite (crash_stops_the_loop MoreSamples.plain (Samples.on "add")
             "llvm-klee" [([], Samples.module_of [Samples.add])]
             [MoreSamples.stale_debug_info]
             (Samples.module_of [Samples.fill]) NullFunction
             [MoreSamples.quiet (Samples.module_of [Samples.add])]).
  - reflexivity.
  - repeat constructor; discriminate.
  - repeat constructor; discriminate.
  - reflexivity.
Defined.

(** What the handler writes for diagnostics of which one ends the run
    is not empty and ends its last line. *)
Lemma report_exit (lib : Support) (Prefix : string) :
  forall (DIs : list DiagnosticInfo) (code : Z),
    snd (report lib Prefix DIs) = Some code ->
    code = 1 /\
    exists line : string, fst (report lib Prefix DIs) = line ++ endl.
Proof.
  induction DIs as [|DI DIs IH]; intros code Hexit; [discriminate|].
  cbn [report handleDiagnostics] in *.
  destruct (getSeverity DI); cbn [fst snd] in *.
  - injection Hexit as <-. split; [reflexivity|].
    eexists. rewrite <- !append_assoc. reflexivity.
  - destruct (IH code Hexit) as [-> [line ->]]. split; [reflexivity|].
    eexists. rewrite <- !append_assoc. reflexivity.
  - destruct (IH code Hexit) as [-> [line ->]]. split; [reflexivity|].
    eexists. rewrite <- !append_assoc. reflexivity.
  - destruct (IH code Hexit) as [-> [line ->]]. split; [reflexivity|].
    eexists. rewrite <- !append_assoc. reflexivity.
Qed.

(** Property X9.  Once the options are parsed, however the run ends:
    [main] returns 0 and no other value; it exits with status 1 and no
    other, from the handler or from [ExitOnErr], and then the error
    stream ends with the line that was written on the way out; when it
    dies in an unchecked step the error stream ends with the report of
    the dying process. *)
Theorem exit_status_and_error_stream (lib : Support) (cl : Given)
        (argv0 : string) (file : string + list Load) :
  match status (main lib argv0 (inr cl) file) with
  | Returned code => code = 0
  | Exited code =>
      code = 1 /\
      exists text : string,
        cerr (main lib argv0 (inr cl) file) = text ++ endl
  | Crashed why =>
      exists text : string,
        cerr (main lib argv0 (inr cl) file) = text ++ crash_report lib why
  end.
Proof.
  unfold main, run. destruct file as [err|Mods].
  - cbn [status cerr]. split; [reflexivity|]. eexists.
    rewrite <- !append_assoc. reflexivity.
  - induction Mods as [|[DIs loading] Mods IH]; [now cbn|].
    cbn [modules_loop reported loaded].
    pose proof (report_exit lib argv0 DIs) as Hexit.
    destruct (report lib argv0 DIs) as [lines [code|]]; cbn [fst snd] in *.
    + cbn [status cerr]. exact (Hexit code eq_refl).
    + destruct loading as [err|M].
      * cbn [status cerr]. split; [reflexivity|]. eexists.
        rewrite <- !append_assoc. reflexivity.
      * destruct (end_of_cases cl M) as [Hret|[why Hcrash]];
          unfold end_of in *;
          destruct (snd (process_module cl M)) as [stop text];
          cbn [fst] in *; subst stop.
        -- cbn [status cerr].
           destruct (status (modules_loop cl lib argv0 Mods)).
           ++ exact IH.
           ++ destruct IH as [-> [t Ht]]. split; [reflexivity|].
              exists (lines ++ t). now rewrite Ht, append_assoc.
           ++ destruct IH as [t Ht]. exists (lines ++ t).
              now rewrite Ht, append_assoc.
        -- cbn [status cerr]. now exists lines.
Qed.

(** *** As many records as formal parameters *)

Lemma generate_exact_count_witness :
  generate (Samples.on "scale") MoreSamples.scale =
  (Returned 0,
   prologue ++
   declarations (Samples.on "scale") (Arguments MoreSamples.scale)
                ["v"; "k"] ++
   ("  scale(v, k);" ++ endl) ++ epilogue).
Proof.
  apply (generate_exact_count (Samples.on "scale") MoreSamples.scale
           [Samples.alloca; Samples.declare "v"; Samples.declare "k";
            Samples.ret]
           [] ["v"; "k"]).
  - reflexivity.
  - reflexivity.
  - reflexivity.
  - reflexivity.
  - discriminate.
Defined.

(* ===================================================================== *)
(** ** The annotation writer *)
(* ===================================================================== *)

Lemma all_digits_string_of_uint (d : Decimal.uint) :
  all_digits (NilEmpty.string_of_uint d) = true.
Proof.
  induction d; simpl; try exact IHd; reflexivity.
Qed.

Lemma all_digits_decimal (z : Z) : 0 <= z -> all_digits (decimal z) = true.
Proof.
  intros Hz. unfold decimal. destruct z as [|p|p]; [reflexivity | | lia].
  apply all_digits_string_of_uint.
Qed.

Lemma decimal_inj (a b : Z) : decimal a = decimal b -> a = b.
Proof.
  intros H. apply (f_equal read_decimal) in H.
  rewrite !read_decimal_decimal in H. now injection H.
Qed.

(** Digits followed by something that does not begin with a digit are
    read back in one way only. *)
Lemma digits_split :
  forall d1 d2 r1 r2 : string,
    all_digits d1 = true -> all_digits d2 = true ->
    no_digit_ahead r1 = true -> no_digit_ahead r2 = true ->
    d1 ++ r1 = d2 ++ r2 -> d1 = d2 /\ r1 = r2.
Proof.
  induction d1 as [|c d1 IH]; intros [|c' d2] r1 r2 H1 H2 Hr1 Hr2 Heq;
    simpl in *.
  - now split.
  - subst r1. simpl in Hr1. apply andb_prop in H2 as [Hc _].
    rewrite Hc in Hr1. discriminate.
  - subst r2. simpl in Hr2. apply andb_prop in H1 as [Hc _].
    rewrite Hc in Hr2. discriminate.
  - injection Heq as -> Heq.
    apply andb_prop in H1 as [_ H1]. apply andb_prop in H2 as [_ H2].
    destruct (IH d2 r1 r2 H1 H2 Hr1 Hr2 Heq) as [-> ->]. now split.
Qed.

(** Property X11.  [printDebugLoc] loses nothing: two locations that print the same
    text are the same location, line, column and inlining chain. *)
Theorem printDebugLoc_injective :
  forall DL1 DL2 : DILocation,
    unsigned_location DL1 -> unsigned_location DL2 ->
    printDebugLoc DL1 = printDebugLoc DL2 -> DL1 = DL2.
Proof.
  assert (Hstep : forall l1 c1 l2 c2 t1 t2,
             0 <= l1 -> 0 <= c1 -> 0 <= l2 -> 0 <= c2 ->
             no_digit_ahead t1 = true -> no_digit_ahead t2 = true ->
             decimal l1 ++ ":" ++ decimal c1 ++ t1 =
             decimal l2 ++ ":" ++ decimal c2 ++ t2 ->
             l1 = l2 /\ c1 = c2 /\ t1 = t2).
  { intros l1 c1 l2 c2 t1 t2 Hl1 Hc1 Hl2 Hc2 Ht1 Ht2 Heq.
    apply digits_split in Heq;
      try (now apply all_digits_decimal); try reflexivity.
    destruct Heq as [Hl Heq]. apply decimal_inj in Hl.
    injection Heq as Heq.
    apply digits_split in Heq;
      try (now apply all_digits_decimal); try assumption.
    destruct Heq as [Hc Ht]. apply decimal_inj in Hc. now repeat split. }
  induction DL1 as [l1 c1|l1 c1 IDL1 IH];
    intros [l2 c2|l2 c2 IDL2] (Hl1 & Hc1 & H1) (Hl2 & Hc2 & H2) Heq;
    cbn [printDebugLoc getLine getCol] in *.
  - apply Hstep in Heq; try assumption; try reflexivity.
    destruct Heq as (-> & -> & _). reflexivity.
  - apply Hstep in Heq; try assumption; try reflexivity.
    destruct Heq as (_ & _ & Ht). discriminate.
  - apply Hstep in Heq; try assumption; try reflexivity.
    destruct Heq as (_ & _ & Ht). discriminate.
  - apply Hstep in Heq; try assumption; try reflexivity.
    destruct Heq as (-> & -> & Ht). injection Ht as Ht.
    now rewrite (IH IDL2 H1 H2 Ht).
Qed.

Lemma printDebugLoc_injective_witness :
  MoreSamples.inlined = InlinedLocation (6 + 6) 3 (Location 40 (3 * 3)).
Proof.
  apply (printDebugLoc_injective MoreSamples.inlined
           (InlinedLocation (6 + 6) 3 (Location 40 (3 * 3)))).
  - simpl. lia.
  - simpl. lia.
  - reflexivity.
Defined.

(** The text of a location inlined once. *)
Example printDebugLoc_of_inlined :
  printDebugLoc MoreSamples.inlined = "12:3@40:9".
Proof. reflexivity. Qed.

Section CommentWriterFacts.

Variable print_type : Ty -> string.
Variable getVariableName : Instruction -> string.

(** Property X12.  The comment of a value is empty exactly when the value has type
    void and either is not an instruction or is an instruction without
    debug location that is neither a debug-declare nor a debug-value
    call. *)
Theorem comment_is_empty_iff (V : AnnotatedValue) :
  printInfoComment print_type getVariableName V = [] <->
  isVoidTy (getValueType V) = true /\
  match asInstruction V with
  | None => True
  | Some (DebugLoc, Inst) =>
      DebugLoc = None /\ debug_declaration_record Inst = false
  end.
Proof.
  unfold printInfoComment, debug_variable_comment, debug_declaration_record,
    pad_unless.
  destruct (isVoidTy (getValueType V));
    destruct (asInstruction V) as [[[DL|] Inst]|];
    try destruct (isa_DbgDeclareInst Inst);
    try destruct (isa_DbgValueInst Inst);
    cbn; split; intros H; try discriminate; try tauto;
    try (destruct H as [H _]; discriminate);
    try (destruct H as [_ [H _]]; discriminate);
    try (destruct H as [_ [_ H]]; discriminate).
Qed.

(** Property X13.  A comment that is not empty begins with one padding to column 50
    and a semicolon, and asks for no other padding: whichever of its
    three parts comes first opens the comment, and only that one. *)
Theorem comment_is_padded_once (V : AnnotatedValue) :
  printInfoComment print_type getVariableName V = [] \/
  exists (text : string) (rest : list Out),
    printInfoComment print_type getVariableName V =
      PadToColumn 50 :: Write (";" ++ text) :: rest /\
    forallb (fun o => negb (is_PadToColumn o)) rest = true.
Proof.
  unfold printInfoComment, debug_variable_comment, pad_unless.
  destruct (isVoidTy (getValueType V));
    destruct (asInstruction V) as [[[DL|] Inst]|];
    try destruct (isa_DbgDeclareInst Inst);
    try destruct (isa_DbgValueInst Inst);
    cbn [negb app fst snd];
    first [ now left
          | right; eexists; eexists; split; [reflexivity | reflexivity] ].
Qed.

End CommentWriterFacts.
